(** * Email spam classifier: text normalizer and prediction service

    A shallow embedding of [preprocessor.py], [model.py] and the [/predict]
    route of [app.py], with the properties of the specification stated and
    proved (or refuted) over it.

    Python strings are modelled as lists of characters.  A character is a
    code point in the range 0..255 (Latin-1), carried by [ascii]; the
    character classes [\s], [\w], [\d] and [str.lower] below are the ones
    CPython uses for [str] patterns, restricted to that range.  The
    Snowball stemmer, the loaded pipeline and the file system are outside
    the program and enter as parameters.  A NumPy array of strings is
    modelled by the list of the strings that are read from it. *)

From Stdlib Require Import String Ascii List Bool Arith Lia ZArith Floats.
Import ListNotations.

(** ** Strings *)

Definition str := list ascii.

(** A string literal of the source, as a list of characters. *)
Definition lit (s : string) : str := list_ascii_of_string s.
Arguments lit : simpl never.

Definition code (c : ascii) : nat := nat_of_ascii c.

Definition between (lo hi n : nat) : bool := (lo <=? n) && (n <=? hi).

(** [str.isspace] per character, which is also the class [\s]. *)
Definition is_space (c : ascii) : bool :=
  let n := code c in
  between 9 13 n || between 28 32 n || (n =? 133) || (n =? 160).

(** The class [\d]: decimal digits. *)
Definition is_digit (c : ascii) : bool := between 48 57 (code c).

(** The class [\w]: alphanumeric characters and the underscore. *)
Definition is_word (c : ascii) : bool :=
  let n := code c in
  between 48 57 n || between 65 90 n || (n =? 95) || between 97 122 n
  || (n =? 170) || between 178 179 n || (n =? 181) || between 185 186 n
  || between 188 190 n || between 192 214 n || between 216 246 n
  || between 248 255 n.

(** [str.lower] on one character. *)
Definition lower_char (c : ascii) : ascii :=
  let n := code c in
  if between 65 90 n || between 192 214 n || between 216 222 n
  then ascii_of_nat (n + 32) else c.

(** [text.lower()] *)
Definition lower (s : str) : str := map lower_char s.

Definition str_eqb (a b : str) : bool :=
  if list_eq_dec ascii_dec a b then true else false.

(** [s.startswith(p)] *)
Fixpoint starts_with (p s : str) : bool :=
  match p, s with
  | [], _ => true
  | _ :: _, [] => false
  | a :: p', b :: s' => Ascii.eqb b a && starts_with p' s'
  end.

(** [p in s] for strings: [p] occurs as a contiguous substring of [s]. *)
Fixpoint contains (p s : str) : bool :=
  starts_with p s ||
  match s with
  | [] => false
  | _ :: s' => contains p s'
  end.

(** [text.strip()]: leading and trailing whitespace removed. *)
Fixpoint lstrip (s : str) : str :=
  match s with
  | c :: s' => if is_space c then lstrip s' else s
  | [] => []
  end.

Fixpoint rstrip (s : str) : str :=
  match s with
  | c :: s' =>
      match rstrip s' with
      | [] => if is_space c then [] else [c]
      | kept => c :: kept
      end
  | [] => []
  end.

Definition strip (s : str) : str := rstrip (lstrip s).

(** ** The regular expressions of [re], as far as the program uses them *)

Module Re.

(** Patterns.  Alternation and the greedy quantifiers try their first
    choice first and fall back on failure of what follows, as the
    backtracking matcher of [re] does. *)
Inductive regex : Type :=
| Chr (c : ascii)            (* a literal character *)
| Cls (p : ascii -> bool)    (* a character class: \s, \S, \d, [..] *)
| Cat (r1 r2 : regex)        (* r1 r2 *)
| Alt (r1 r2 : regex)        (* r1|r2 *)
| Opt (r : regex)            (* r?  (greedy) *)
| Plus (r : regex)           (* r+  (greedy) *)
| Bnd.                       (* \b *)

(** Whether the character before or after a position is a word character;
    there is none at either end of the text. *)
Definition word_at (c : option ascii) : bool :=
  match c with
  | Some x => is_word x
  | None => false
  end.

(** A position of the text: the character just before it, and the text from
    it on. *)
Definition cont := option ascii -> str -> option (option ascii * str).

(** The loop of a greedy [r+]: one more round of the body as long as the
    body consumes text, then the continuation; on failure of what follows,
    one round fewer.  [fuel] bounds the number of rounds; the length of the
    text is enough, since a round that goes on consumes a character. *)
Fixpoint plus_loop (body : option ascii -> str -> cont -> option (option ascii * str))
    (k : cont) (fuel : nat) (prev : option ascii) (s : str)
  : option (option ascii * str) :=
  body prev s (fun prev' s' =>
    match fuel with
    | S fuel' =>
        if length s' <? length s then
          match plus_loop body k fuel' prev' s' with
          | Some e => Some e
          | None => k prev' s'
          end
        else k prev' s'
    | O => k prev' s'
    end).

(** [m r prev s k]: match [r] at the position whose preceding character is
    [prev] and whose remaining text is [s], then continue with [k]; the
    result is the position where the whole match ends. *)
Fixpoint m (r : regex) (prev : option ascii) (s : str) (k : cont)
  : option (option ascii * str) :=
  match r with
  | Chr c =>
      match s with
      | x :: s' => if Ascii.eqb x c then k (Some x) s' else None
      | [] => None
      end
  | Cls p =>
      match s with
      | x :: s' => if p x then k (Some x) s' else None
      | [] => None
      end
  | Cat r1 r2 => m r1 prev s (fun prev' s' => m r2 prev' s' k)
  | Alt r1 r2 =>
      match m r1 prev s k with
      | Some e => Some e
      | None => m r2 prev s k
      end
  | Opt r1 =>
      match m r1 prev s k with
      | Some e => Some e
      | None => k prev s
      end
  | Plus r1 => plus_loop (m r1) k (length s) prev s
  | Bnd =>
      if xorb (word_at prev) (word_at (hd_error s)) then k prev s else None
  end.

(** One match attempt at a position. *)
Definition match_at (r : regex) (prev : option ascii) (s : str)
  : option (option ascii * str) :=
  m r prev s (fun prev' s' => Some (prev', s')).

(** [pattern.search]: the leftmost position where the pattern matches;
    the result is the text skipped before the match and the position after
    the match. *)
Fixpoint search (r : regex) (prev : option ascii) (s : str)
  : option (str * (option ascii * str)) :=
  match match_at r prev s with
  | Some e => Some ([], e)
  | None =>
      match s with
      | [] => None
      | x :: s' =>
          match search r (Some x) s' with
          | Some (pre, e) => Some (x :: pre, e)
          | None => None
          end
      end
  end.

(** [re.split(pattern, text, maxsplit=1)] for a pattern without groups. *)
Definition split1 (r : regex) (s : str) : list str :=
  match search r None s with
  | Some (pre, (_, post)) => [pre; post]
  | None => [s]
  end.

(** [re.sub(pattern, repl, text)] for a literal replacement: the
    non-overlapping matches are replaced from left to right, and the search
    resumes where the previous match ended.  [fuel] bounds the number of
    positions visited; the length of the text is enough.  None of the
    patterns of the program matches the empty string; should a pattern do
    so, the replacement is inserted and the scan moves on by one
    character. *)
Fixpoint sub_from (fuel : nat) (r : regex) (repl : str)
    (prev : option ascii) (s : str) : str :=
  match s with
  | [] =>
      match match_at r prev [] with
      | Some _ => repl
      | None => []
      end
  | x :: s' =>
      match fuel with
      | O => s
      | S fuel' =>
          match match_at r prev s with
          | Some (prev', rest) =>
              if length rest <? length s
              then repl ++ sub_from fuel' r repl prev' rest
              else repl ++ x :: sub_from fuel' r repl (Some x) s'
          | None => x :: sub_from fuel' r repl (Some x) s'
          end
      end
  end.

Definition sub (r : regex) (repl : str) (s : str) : str :=
  sub_from (length s) r repl None s.

(** A literal word of a pattern, character by character. *)
Fixpoint word (w : str) : regex :=
  match w with
  | [] => Opt (Cls (fun _ => false))
  | [c] => Chr c
  | c :: w' => Cat (Chr c) (word w')
  end.

End Re.

Import Re.

Definition not_space (c : ascii) : bool := negb (is_space c).

(** ** preprocessor.py *)

(** The characters [\n] and [\r]. *)
Definition nl : ascii := "010".
Definition cr : ascii := "013".

(** [r'\r?\n\r?\n'] *)
Definition re_blank_line : regex :=
  Cat (Opt (Chr cr)) (Cat (Chr nl) (Cat (Opt (Chr cr)) (Chr nl))).

(** [r'https?://\S+|www\.\S+'] *)
Definition re_url : regex :=
  Alt (Cat (word (lit "http")) (Cat (Opt (Chr "s"))
         (Cat (word (lit "://")) (Plus (Cls not_space)))))
      (Cat (word (lit "www.")) (Plus (Cls not_space))).

(** The class [[.,]]. *)
Definition is_sep (c : ascii) : bool := Ascii.eqb c "." || Ascii.eqb c ",".

(** [r'\b\d+(?:[.,]\d+)?\b'] *)
Definition re_number : regex :=
  Cat Bnd (Cat (Plus (Cls is_digit))
    (Cat (Opt (Cat (Cls is_sep) (Plus (Cls is_digit)))) Bnd)).

(** [r'[^\w\s]'] *)
Definition re_punct : regex :=
  Cls (fun c => negb (is_word c || is_space c)).

(** [r'\s+'] *)
Definition re_spaces : regex := Plus (Cls is_space).

(** [text.split()]: the maximal runs of non-whitespace characters. *)
Fixpoint split_ws_from (cur : str) (s : str) : list str :=
  match s with
  | [] => match cur with [] => [] | _ => [rev cur] end
  | c :: s' =>
      if is_space c
      then match cur with
           | [] => split_ws_from [] s'
           | _ => rev cur :: split_ws_from [] s'
           end
      else split_ws_from (c :: cur) s'
  end.

Definition split_ws (s : str) : list str := split_ws_from [] s.

(** [sep.join(parts)] *)
Fixpoint join (sep : str) (parts : list str) : str :=
  match parts with
  | [] => []
  | [p] => p
  | p :: ps => p ++ sep ++ join sep ps
  end.

(** The constructor arguments of [EmailPreprocessor]. *)
Record EmailPreprocessor : Type := {
  strip_headers : bool;
  lowercase : bool;
  replace_urls : bool;
  replace_numbers : bool;
  remove_punctuation : bool;
  do_stemming : bool
}.

(** The defaults of [EmailPreprocessor.__init__]. *)
Definition default_preprocessor : EmailPreprocessor :=
  {| strip_headers := true; lowercase := true; replace_urls := true;
     replace_numbers := true; remove_punctuation := true;
     do_stemming := false |}.

Definition _strip_headers (text : str) : str :=
  match split1 re_blank_line text with
  | _ :: part1 :: _ => part1
  | _ => text
  end.

Definition _replace_urls (text : str) : str := sub re_url (lit " URL ") text.

Definition _replace_numbers (text : str) : str :=
  sub re_number (lit " NUMBER ") text.

Definition _remove_punct (text : str) : str := sub re_punct (lit " ") text.

Definition collapse_whitespace (text : str) : str :=
  strip (sub re_spaces (lit " ") text).

(** The character [\x00]. *)
Definition nul : ascii := "000".

(** A string as it is read back from a NumPy array of strings.  The array
    stores its strings at one fixed width, padded with [\x00], and an
    element is read without the [\x00] characters at its end: those of the
    padding, and those the string ended with itself. *)
Fixpoint strip_trailing_nul (s : str) : str :=
  match s with
  | c :: s' =>
      match strip_trailing_nul s' with
      | [] => if Ascii.eqb c nul then [] else [c]
      | kept => c :: kept
      end
  | [] => []
  end.

(** [np.array(out)] for a list of strings, as the list of its elements. *)
Definition np_array (out : list str) : list str :=
  map strip_trailing_nul out.

Section Transform.

(** [SnowballStemmer("english").stem], a function of the NLTK library. *)
Variable stemmer_stem : str -> str.

Definition _stem (text : str) : str :=
  join (lit " ") (map stemmer_stem (split_ws text)).

Definition step (enabled : bool) (f : str -> str) (text : str) : str :=
  if enabled then f text else text.

(** The body of the loop of [EmailPreprocessor.transform], for one text. *)
Definition transform1 (self : EmailPreprocessor) (text : str) : str :=
  let text := step (strip_headers self) _strip_headers text in
  let text := step (lowercase self) lower text in
  let text := step (replace_urls self) _replace_urls text in
  let text := step (replace_numbers self) _replace_numbers text in
  let text := step (remove_punctuation self) _remove_punct text in
  let text := step (do_stemming self) _stem text in
  collapse_whitespace text.

(** [EmailPreprocessor.transform]: one output per input text, returned as
    a NumPy array. *)
Definition transform (self : EmailPreprocessor) (X : list str) : list str :=
  np_array (map (transform1 self) X).

End Transform.

(** ** model.py *)

(** The loaded pipeline, seen through the two calls the program makes on it.
    [predict text] is [model.predict([text])[0]] and [predict_proba text] is
    [model.predict_proba([text])[0]]; [None] stands for a call that raises
    (which includes a pipeline without [predict_proba]). *)
Record Model : Type := {
  predict : str -> option Z;
  predict_proba : str -> option (list float)
}.

(** What [joblib.load(MODEL_PATH)] and the report printed after it do: the
    load raises, or it returns a pipeline and the report (which reads
    [_model.steps]) either goes through or raises. *)
Inductive LoadResult : Type :=
| LoadRaises
| Loaded (model : Model) (report_raises : bool).

(** What a call of [load_model] can observe outside the process. *)
Record Env : Type := {
  path_exists : bool;          (* os.path.exists(MODEL_PATH) *)
  joblib_load : LoadResult     (* joblib.load(MODEL_PATH) *)
}.

(** The module globals [_model] and [_model_loaded]. *)
Record Globals : Type := {
  _model : option Model;
  _model_loaded : bool
}.

(** The globals when the module has just been imported. *)
Definition initial_globals : Globals :=
  {| _model := None; _model_loaded := false |}.

Definition load_model (env : Env) (g : Globals) : Globals * option Model :=
  if _model_loaded g then (g, _model g)
  else if negb (path_exists env) then
    ({| _model := _model g; _model_loaded := true |}, None)
  else
    match joblib_load env with
    | LoadRaises => ({| _model := _model g; _model_loaded := true |}, None)
    | Loaded model false =>
        ({| _model := Some model; _model_loaded := true |}, Some model)
    | Loaded model true =>
        ({| _model := Some model; _model_loaded := true |}, None)
    end.

Definition scam_keywords : list str :=
  map lit
    [ "urgent"; "verify"; "suspended"; "click here"; "prize";
      "winner"; "congratulations"; "bank account"; "password";
      "confirm identity"; "act now"; "limited time"; "free money";
      "nigerian prince"; "inheritance"; "tax refund"; "claim now";
      "account locked"; "unusual activity"; "expires today";
      "verify your account"; "confirm your identity"; "update payment"
    ]%string.

(** [sum(1 for keyword in scam_keywords if keyword in text_lower)] *)
Definition scam_score (text : str) : nat :=
  let text_lower := lower text in
  list_sum
    (map (fun _ => 1)
         (filter (fun keyword => contains keyword text_lower) scam_keywords)).

Definition fallback_classification (text : str) : str :=
  if 3 <=? scam_score text then lit "Spam" else lit "Not Spam".

Definition classify_email (env : Env) (g : Globals) (text : str)
  : Globals * str :=
  let (g, model) := load_model env g in
  match model with
  | Some model =>
      match predict model text with
      | Some prediction =>
          (g, if Z.eqb prediction 1 then lit "Spam" else lit "Not Spam")
      | None => (g, fallback_classification text)
      end
  | None => (g, fallback_classification text)
  end.

(** [ndarray.argmax] of NumPy on a vector of doubles: the first index of
    the largest entry, a NaN counting as the largest; the call raises on an
    empty vector. *)
Fixpoint argmax_from (mp : float) (best i : nat) (ip : list float) : nat :=
  match ip with
  | [] => best
  | x :: ip' =>
      if negb (PrimFloat.leb x mp)
      then if PrimFloat.is_nan x then i else argmax_from x i (S i) ip'
      else argmax_from mp best (S i) ip'
  end.

Definition argmax (a : list float) : option nat :=
  match a with
  | [] => None
  | x :: a' => if PrimFloat.is_nan x then Some 0 else Some (argmax_from x 0 1 a')
  end.

(** The literal [0.85]. *)
#[warnings="-inexact-float"]
Definition placeholder_confidence : float := 0.85%float.

Definition get_prediction_confidence (env : Env) (g : Globals) (text : str)
  : Globals * (str * float) :=
  let (g, model) := load_model env g in
  match model with
  | Some model =>
      match
        match predict_proba model text with
        | Some proba =>
            match argmax proba with
            | Some prediction_idx =>
                match nth_error proba prediction_idx with
                | Some confidence =>
                    Some (if prediction_idx =? 1
                          then lit "Spam" else lit "Not Spam", confidence)
                | None => None
                end
            | None => None
            end
        | None => None
        end
      with
      | Some result => (g, result)
      | None =>
          let (g, prediction) := classify_email env g text in
          (g, (prediction, placeholder_confidence))
      end
  | None =>
      let (g, prediction) := classify_email env g text in
      (g, (prediction, placeholder_confidence))
  end.

(** [MODEL_PATH] *)
Definition MODEL_PATH : str := lit "pipe_nb.joblib".

(** What [get_model_info] asks of the pipeline object besides its two
    calls: its truth value ([if model]), the name of its type and whether
    it has an attribute [predict_proba]. *)
Record ModelObject : Type := {
  model_truth : Model -> bool;
  model_type_name : Model -> str;
  model_has_predict_proba : Model -> bool
}.

(** The dictionary [get_model_info] returns. *)
Record ModelInfo : Type := {
  model_loaded : bool;
  model_type : option str;
  has_predict_proba : bool;
  model_path : str;
  model_exists : bool
}.

Definition get_model_info (obj : ModelObject) (env : Env) (g : Globals)
  : Globals * ModelInfo :=
  let (g, model) := load_model env g in
  (g,
   {| model_loaded := match model with Some _ => true | None => false end;
      model_type :=
        match model with
        | Some mo =>
            if model_truth obj mo then Some (model_type_name obj mo) else None
        | None => None
        end;
      has_predict_proba :=
        match model with
        | Some mo =>
            if model_truth obj mo then model_has_predict_proba obj mo
            else false
        | None => false
        end;
      model_path := MODEL_PATH;
      model_exists := path_exists env |}).

(** ** app.py: the routes [/predict] and [/health] *)

(** A parsed JSON document, as [request.get_json()] returns it. *)
#[warnings="-register-all"]
Inductive json : Type :=
| JNull
| JBool (b : bool)
| JInt (n : Z)
| JFloat (x : float)
| JStr (s : str)
| JArr (items : list json)
| JObj (fields : list (str * json)).

(** [request.get_json()]: the parsed body, or an HTTP exception of the
    framework (unparsable body, wrong content type). *)
Inductive GetJson : Type :=
| GotJson (data : json)
| GetJsonRaises.

(** Truth value of a Python object. *)
Definition truthy (v : json) : bool :=
  match v with
  | JNull => false
  | JBool b => b
  | JInt n => negb (Z.eqb n 0)
  | JFloat x => negb (PrimFloat.eqb x 0)
  | JStr s => match s with [] => false | _ => true end
  | JArr items => match items with [] => false | _ => true end
  | JObj fields => match fields with [] => false | _ => true end
  end.

(** [d.get(key, default)] on a dictionary. *)
Fixpoint dict_get (fields : list (str * json)) (key : str) (default : json)
  : json :=
  match fields with
  | [] => default
  | (k, v) :: fields' =>
      if str_eqb k key then v else dict_get fields' key default
  end.

(** A response of the route: [jsonify(body), status]. *)
Record Response : Type := {
  body : json;
  status : nat
}.

Definition error_response (message : string) (code : nat) : Response :=
  {| body := JObj [(lit "error", JStr (lit message))]; status := code |}.

Definition internal_error_response : Response :=
  error_response
    "An error occurred while processing your request. Please try again." 500.

(** The handler of [POST /predict].  An attribute error on a body that is
    not a dictionary, or on an [email_text] that is not a string, is an
    exception of the [try] block and ends in the last handler, as an
    exception of [get_json] does.  No call of the [try] block raises a
    [ValueError] here, so the handler for it is not reached.  The
    one-second sleep is left out. *)
Definition predict_route (env : Env) (g : Globals) (request : GetJson)
  : Globals * Response :=
  match request with
  | GetJsonRaises => (g, internal_error_response)
  | GotJson data =>
      if negb (truthy data) then (g, error_response "No data provided" 400)
      else
        match data with
        | JObj fields =>
            match dict_get fields (lit "email_text") (JStr []) with
            | JStr raw =>
                let email_text := strip raw in
                match email_text with
                | [] => (g, error_response "Email text is required" 400)
                | _ =>
                    if length email_text <? 10 then
                      (g, error_response
                            "Email text is too short. Please provide at least 10 characters."
                            400)
                    else
                      let '(g, (prediction, confidence)) :=
                        get_prediction_confidence env g email_text in
                      (g, {| body := JObj [(lit "prediction", JStr prediction);
                                           (lit "confidence", JFloat confidence)];
                             status := 200 |})
                end
            | _ => (g, internal_error_response)
            end
        | _ => (g, internal_error_response)
        end
  end.

(** The handler of [GET /health]. *)
Definition health (obj : ModelObject) (env : Env) (g : Globals)
  : Globals * Response :=
  let (g, model_info) := get_model_info obj env g in
  (g,
   {| body :=
        JObj [(lit "status", JStr (lit "healthy"));
              (lit "model_loaded", JBool (model_loaded model_info));
              (lit "model_type",
               match model_type model_info with
               | Some name => JStr name
               | None => JNull
               end)];
      status := 200 |}).

(** The globals the process can be in: [load_model] is the only function
    that assigns them. *)
Inductive reachable : Globals -> Prop :=
| reachable_initial : reachable initial_globals
| reachable_load env g : reachable g -> reachable (fst (load_model env g)).

(** ** Definitions used in the statements and proofs *)

(** The end of the run of [p]-characters that starts with [last]: its last
    character and the text after it. *)
Fixpoint run_end (p : ascii -> bool) (last : ascii) (s : str) : ascii * str :=
  match s with
  | y :: s' => if p y then run_end p y s' else (last, s)
  | [] => (last, [])
  end.

(** A greedy [c+] for a character class [c], by recursion on the text. *)
Fixpoint run_cls (p : ascii -> bool) (k : cont) (s : str)
  : option (option ascii * str) :=
  match s with
  | [] => None
  | x :: s' =>
      if p x then
        match run_cls p k s' with
        | Some e => Some e
        | None => k (Some x) s'
        end
      else None
  end.

(** [re.sub] from a position inside the text. *)
Definition subs (r : regex) (repl : str) (prev : option ascii) (s : str)
  : str :=
  sub_from (length s) r repl prev s.

(** What [_remove_punct] does to one character. *)
Definition punct_char (c : ascii) : ascii :=
  if negb (is_word c || is_space c) then " "%char else c.

(** Runs of whitespace replaced by one space each: [in_run] tells that the
    character before was whitespace. *)
Fixpoint squeeze (in_run : bool) (s : str) : str :=
  match s with
  | [] => []
  | x :: s' =>
      if is_space x
      then if in_run then squeeze true s' else " "%char :: squeeze true s'
      else x :: squeeze false s'
  end.

(** The [\b] that ends a number whose last digit is [l]. *)
Definition bnd_end (l : ascii) (rest : str) : option (option ascii * str) :=
  if negb (word_at (hd_error rest)) then Some (Some l, rest) else None.

(** The decimal part [[.,]\d+] and the closing [\b]. *)
Definition decimal_part (rest : str) : option (option ascii * str) :=
  match rest with
  | c :: y :: t =>
      if is_sep c && is_digit y
      then bnd_end (fst (run_end is_digit y t)) (snd (run_end is_digit y t))
      else None
  | _ => None
  end.

(** The match of [re_number] at a position, in closed form: a run of
    digits that a word character does not precede, with a decimal part when
    that ends at a boundary, and without it when the digits do. *)
Definition number_match (prev : option ascii) (s : str)
  : option (option ascii * str) :=
  match s with
  | x :: s' =>
      if negb (word_at prev) && is_digit x then
        match decimal_part (snd (run_end is_digit x s')) with
        | Some e => Some e
        | None =>
            bnd_end (fst (run_end is_digit x s')) (snd (run_end is_digit x s'))
        end
      else None
  | [] => None
  end.

(** The continuation that ends a match: the position reached. *)
Definition final : cont := fun prev' s' => Some (prev', s').

(** A prefix test, one test per character of the text. *)
Fixpoint pmatch (q : list (ascii -> bool)) (s : str) : bool :=
  match q, s with
  | [], _ => true
  | _ :: _, [] => false
  | f :: q', x :: s' => f x && pmatch q' s'
  end.

(** The characters of a literal word, as tests. *)
Definition chars (w : string) : list (ascii -> bool) :=
  map (fun a x => Ascii.eqb x a) (lit w).

(** Whether [re_url] matches at a position: one of the three openings,
    and a character that is not whitespace after it. *)
Definition url_start (s : str) : bool :=
  pmatch (chars "https://" ++ [not_space]) s
  || pmatch (chars "http://" ++ [not_space]) s
  || pmatch (chars "www." ++ [not_space]) s.

(** The match of [re_url] at a position, in closed form: from an opening
    to the end of the run of characters that are not whitespace. *)
Definition url_match (s : str) : option (option ascii * str) :=
  match s with
  | x :: s' =>
      if url_start s
      then Some (Some (fst (run_end not_space x s')),
                 snd (run_end not_space x s'))
      else None
  | [] => None
  end.

(** The run of characters that are not whitespace at the head of a text. *)
Fixpoint tok (s : str) : str :=
  match s with
  | x :: s' => if is_space x then [] else x :: tok s'
  | [] => []
  end.

(** [free st prev s]: the test [st] (whether a pattern matches at a
    position) fails at every position of [s], the end included; [prev] is
    the character before [s]. *)
Fixpoint free (st : option ascii -> str -> bool) (prev : option ascii)
    (s : str) : Prop :=
  st prev s = false /\
  match s with
  | [] => True
  | x :: s' => free st (Some x) s'
  end.

(** [url_start] as a test on a position; the character before the position
    plays no part. *)
Definition url_st (prev : option ascii) (s : str) : bool := url_start s.

(** A test that no whitespace character passes. *)
Definition off_space (f : ascii -> bool) : Prop :=
  forall c, f c = true -> is_space c = false.

(** Whether [re_number] matches at a position: a run of digits that no
    word character precedes and none follows. *)
Definition num_start (prev : option ascii) (s : str) : bool :=
  match s with
  | x :: s' =>
      negb (word_at prev) && is_digit x
      && negb (word_at (hd_error (snd (run_end is_digit x s'))))
  | [] => false
  end.

(** Only word characters and whitespace. *)
Definition clean (s : str) : Prop :=
  Forall (fun c => is_word c || is_space c = true) s.

(** No character that [str.lower] changes. *)
Definition lowered (s : str) : Prop := Forall (fun c => lower_char c = c) s.

(** No whitespace other than the space character. *)
Definition plain_spaces (s : str) : Prop :=
  Forall (fun c => is_space c = false \/ c = " "%char) s.

(** [tidy b s]: every whitespace character of [s] is a space that follows
    a character that is not whitespace; [b] tells that whitespace comes
    just before [s]. *)
Fixpoint tidy (b : bool) (s : str) : Prop :=
  match s with
  | [] => True
  | x :: s' =>
      if is_space x then x = " "%char /\ b = false /\ tidy true s'
      else tidy false s'
  end.

(** No whitespace at the head of the text. *)
Definition head_not_space (s : str) : Prop :=
  match s with
  | x :: _ => is_space x = false
  | [] => True
  end.

(** [\n] at the head of the text: the text after it. *)
Definition eat_nl (s : str) : option str :=
  match s with
  | c :: s' => if Ascii.eqb c nl then Some s' else None
  | [] => None
  end.

(** [\r?\n] at the head of the text. *)
Definition eat_terminator (s : str) : option str :=
  match s with
  | c :: s' => if Ascii.eqb c cr then eat_nl s' else eat_nl s
  | [] => None
  end.

(** Two line terminators in a row at the head of the text: the text after
    them. *)
Definition blank_match (s : str) : option str :=
  match eat_terminator s with
  | Some s1 => eat_terminator s1
  | None => None
  end.

(** The four strings [r'\r?\n\r?\n'] matches. *)
Definition separators : list str :=
  [[nl; nl]; [cr; nl; nl]; [nl; cr; nl]; [cr; nl; cr; nl]].

(** The leftmost position with two line terminators in a row: the text
    before it and the text after them. *)
Fixpoint find_blank (s : str) : option (str * str) :=
  match blank_match s with
  | Some post => Some ([], post)
  | None =>
      match s with
      | [] => None
      | x :: s' =>
          match find_blank s' with
          | Some (pre, post) => Some (x :: pre, post)
          | None => None
          end
      end
  end.

(** Following the words of the specification: the text after the first
    line that holds only whitespace, if there is such a line.  A line ends
    with [\n]; the [\r] of a [\r\n] ending is whitespace itself. *)
Fixpoint spec_after_blank_line (blank : bool) (s : str) : option str :=
  match s with
  | [] => None
  | c :: s' =>
      if Ascii.eqb c nl then
        if blank then Some s' else spec_after_blank_line true s'
      else spec_after_blank_line (blank && is_space c) s'
  end.

(** Following the words of the specification: header stripping keeps the
    text after the first blank line, and the whole text when there is
    none. *)
Definition spec_strip_headers (text : str) : str :=
  match spec_after_blank_line true text with
  | Some post => post
  | None => text
  end.


(** The default configuration with [lowercase=False]. *)
Definition keep_case : EmailPreprocessor :=
  {| strip_headers := true; lowercase := false; replace_urls := true;
     replace_numbers := true; remove_punctuation := true;
     do_stemming := false |}.

(** No character [\x00]. *)
Definition no_nul (s : str) : Prop := Forall (fun c => c <> nul) s.




(** The default configuration with [do_stemming=True]. *)
Definition with_stemming : EmailPreprocessor :=
  {| strip_headers := true; lowercase := true; replace_urls := true;
     replace_numbers := true; remove_punctuation := true;
     do_stemming := true |}.

(** A stand-in for a stemmer: the first four characters, in lowercase. *)
Definition four_letter_stem (t : str) : str := firstn 4 (lower t).

(** A pipeline that gives both classes the probability 0.5. *)
Definition tied_model : Model :=
  {| predict := fun _ => Some 1%Z;
     predict_proba := fun _ => Some [0.5%float; 0.5%float] |}.

(** A pipeline without probabilities that always predicts [idx]. *)
Definition plain_model (idx : Z) : Model :=
  {| predict := fun _ => Some idx; predict_proba := fun _ => None |}.

(** A pipeline with three classes. *)
Definition three_class_model : Model :=
  {| predict := fun _ => Some 2%Z;
     predict_proba := fun _ => Some [0.25%float; 0.25%float; 0.5%float] |}.

(** The requests the route answers with 400: a body that is false as a
    Python object ([None], an empty dictionary, ...), or a dictionary whose
    [email_text] (the empty string when absent) is a string of fewer than
    10 characters once stripped, the empty string included. *)
Definition rejected_input (request : GetJson) : Prop :=
  match request with
  | GetJsonRaises => False
  | GotJson data =>
      truthy data = false
      \/ exists fields raw,
           data = JObj fields
           /\ dict_get fields (lit "email_text") (JStr []) = JStr raw
           /\ (strip raw = [] \/ length (strip raw) < 10)
  end.

(** The requests the route answers with a prediction. *)
Definition accepted_input (request : GetJson) (email_text : str) : Prop :=
  exists fields raw,
    request = GotJson (JObj fields)
    /\ dict_get fields (lit "email_text") (JStr []) = JStr raw
    /\ email_text = strip raw
    /\ 10 <= length email_text.

(** A request with a text of 20 characters between spaces. *)
Definition ok_request : GetJson :=
  GotJson (JObj [(lit "email_text", JStr (lit "  free money, act now  "))]).

(** * Properties *)

(** ** The matcher on the patterns of the program *)

Lemma plus_loop_cls p k fuel prev s :
  length s <= fuel -> plus_loop (m (Cls p)) k fuel prev s = run_cls p k s.
Proof.
  revert prev s. induction fuel as [|fuel IH]; intros prev [|x s] Hlen;
    simpl in *; try reflexivity; try lia.
  destruct (p x); [|reflexivity].
  replace (length s <? S (length s)) with true
    by (symmetry; apply Nat.ltb_lt; lia).
  rewrite IH by lia. reflexivity.
Qed.

Lemma m_plus_cls p prev s k : m (Plus (Cls p)) prev s k = run_cls p k s.
Proof. simpl. now apply plus_loop_cls. Qed.

Lemma m_chr c prev s k :
  m (Chr c) prev s k
  = match s with
    | x :: s' => if Ascii.eqb x c then k (Some x) s' else None
    | [] => None
    end.
Proof. reflexivity. Qed.

Lemma m_cls p prev s k :
  m (Cls p) prev s k
  = match s with
    | x :: s' => if p x then k (Some x) s' else None
    | [] => None
    end.
Proof. reflexivity. Qed.

Lemma m_cat r1 r2 prev s k :
  m (Cat r1 r2) prev s k = m r1 prev s (fun prev' s' => m r2 prev' s' k).
Proof. reflexivity. Qed.

Lemma m_alt r1 r2 prev s k :
  m (Alt r1 r2) prev s k
  = match m r1 prev s k with
    | Some e => Some e
    | None => m r2 prev s k
    end.
Proof. reflexivity. Qed.

Lemma m_opt r1 prev s k :
  m (Opt r1) prev s k
  = match m r1 prev s k with
    | Some e => Some e
    | None => k prev s
    end.
Proof. reflexivity. Qed.

Lemma m_bnd prev s k :
  m Bnd prev s k
  = if xorb (word_at prev) (word_at (hd_error s)) then k prev s else None.
Proof. reflexivity. Qed.

(** When what follows a run cannot succeed in the middle of the run, the
    run is taken whole. *)
Lemma run_cls_maximal p (k : cont) :
  (forall x y s, p x = true -> p y = true -> k (Some x) (y :: s) = None) ->
  forall x s, p x = true ->
    run_cls p k (x :: s)
    = k (Some (fst (run_end p x s))) (snd (run_end p x s)).
Proof.
  intros Hmid x s. revert x. induction s as [|y s IH]; intros x Hx.
  - simpl. now rewrite Hx.
  - change (run_cls p k (x :: y :: s))
      with (if p x then match run_cls p k (y :: s) with
                        | Some e => Some e
                        | None => k (Some x) (y :: s)
                        end else None).
    rewrite Hx. simpl run_end. destruct (p y) eqn:Hy.
    + rewrite (IH y Hy).
      destruct (k (Some (fst (run_end p y s))) (snd (run_end p y s)));
        [reflexivity|]. now apply Hmid.
    + simpl. now rewrite Hy.
Qed.

(** When what follows always succeeds, the run is taken whole too. *)
Lemma run_cls_final p x s :
  p x = true ->
  run_cls p (fun prev' s' => Some (prev', s')) (x :: s)
  = Some (Some (fst (run_end p x s)), snd (run_end p x s)).
Proof.
  revert x. induction s as [|y s IH]; intros x Hx.
  - simpl. now rewrite Hx.
  - change (run_cls p (fun prev' s' => Some (prev', s')) (x :: y :: s))
      with (if p x
            then match run_cls p (fun prev' s' => Some (prev', s')) (y :: s) with
                 | Some e => Some e
                 | None => Some (Some x, y :: s)
                 end else None).
    rewrite Hx. simpl run_end. destruct (p y) eqn:Hy.
    + now rewrite (IH y Hy).
    + simpl. now rewrite Hy.
Qed.

Lemma run_cls_stop p k x s : p x = false -> run_cls p k (x :: s) = None.
Proof. intros H. simpl. now rewrite H. Qed.

Lemma run_end_step p x y s :
  p y = true -> run_end p x (y :: s) = run_end p y s.
Proof. intros H. simpl. now rewrite H. Qed.

Lemma run_end_length p x s : length (snd (run_end p x s)) <= length s.
Proof.
  revert x. induction s as [|y s IH]; intros x; simpl; [lia|].
  destruct (p y); simpl; [specialize (IH y); lia|lia].
Qed.

Lemma run_end_last p x s : p x = true -> p (fst (run_end p x s)) = true.
Proof.
  revert x. induction s as [|y s IH]; intros x Hx; simpl; [exact Hx|].
  destruct (p y) eqn:Hy; simpl; auto.
Qed.

Lemma run_end_next p x s :
  match snd (run_end p x s) with
  | y :: _ => p y = false
  | [] => True
  end.
Proof.
  revert x. induction s as [|y s IH]; intros x; simpl; [exact I|].
  destruct (p y) eqn:Hy; simpl; [apply IH|exact Hy].
Qed.

(** ** [re.sub], one position at a time *)

Lemma sub_from_fuel r repl fuel prev s :
  length s <= fuel -> sub_from fuel r repl prev s = subs r repl prev s.
Proof.
  unfold subs. revert prev s.
  induction fuel as [fuel IH] using lt_wf_ind. intros prev s Hlen.
  destruct s as [|x s]; [destruct fuel; reflexivity|].
  destruct fuel as [|fuel]; [simpl in Hlen; lia|].
  simpl in Hlen. simpl length. cbn [sub_from].
  destruct (match_at r prev (x :: s)) as [[prev' rest]|].
  - simpl length. destruct (length rest <? S (length s)) eqn:Hlt.
    + apply Nat.ltb_lt in Hlt. f_equal.
      rewrite (IH fuel) by lia. rewrite (IH (length s)) by lia. reflexivity.
    + do 2 f_equal. rewrite (IH fuel) by lia. reflexivity.
  - f_equal. rewrite (IH fuel) by lia. reflexivity.
Qed.

Lemma subs_nil r repl prev :
  subs r repl prev []
  = match match_at r prev [] with Some _ => repl | None => [] end.
Proof. reflexivity. Qed.

Lemma subs_cons r repl prev x s :
  subs r repl prev (x :: s)
  = match match_at r prev (x :: s) with
    | Some (prev', rest) =>
        if length rest <? S (length s)
        then repl ++ subs r repl prev' rest
        else repl ++ x :: subs r repl (Some x) s
    | None => x :: subs r repl (Some x) s
    end.
Proof.
  unfold subs at 1. simpl length. cbn [sub_from].
  destruct (match_at r prev (x :: s)) as [[prev' rest]|]; [|reflexivity].
  simpl length. destruct (length rest <? S (length s)) eqn:Hlt; [|reflexivity].
  apply Nat.ltb_lt in Hlt. now rewrite sub_from_fuel by lia.
Qed.

Lemma sub_subs r repl s : sub r repl s = subs r repl None s.
Proof. reflexivity. Qed.

(** ** Character classes *)

Ltac each_char c :=
  destruct c as [[] [] [] [] [] [] [] []]; vm_compute; try reflexivity;
  try discriminate; auto.

Lemma digit_is_word c : is_digit c = true -> is_word c = true.
Proof. each_char c. Qed.

Lemma space_not_word c : is_space c = true -> is_word c = false.
Proof. each_char c. Qed.

Lemma digit_not_space c : is_digit c = true -> is_space c = false.
Proof. each_char c. Qed.

Lemma lower_char_idem c : lower_char (lower_char c) = lower_char c.
Proof. each_char c. Qed.

Lemma lower_char_space c : is_space (lower_char c) = is_space c.
Proof. each_char c. Qed.

Lemma lower_char_word c : is_word (lower_char c) = is_word c.
Proof. each_char c. Qed.

Lemma sep_not_word c : is_sep c = true -> is_word c = false.
Proof. each_char c. Qed.

Lemma digit_not_sep c : is_digit c = true -> is_sep c = false.
Proof. each_char c. Qed.

(** ** Closed forms of the substitutions *)

Lemma remove_punct_map_from prev s :
  subs re_punct (lit " ") prev s = map punct_char s.
Proof.
  revert prev. induction s as [|x s IH]; intros prev; [reflexivity|].
  rewrite subs_cons. unfold match_at, re_punct. cbn [m map]. unfold punct_char.
  destruct (negb (is_word x || is_space x)).
  - replace (length s <? S (length s)) with true
      by (symmetry; apply Nat.ltb_lt; lia).
    cbn [lit list_ascii_of_string app]. now rewrite IH.
  - now rewrite IH.
Qed.

Lemma remove_punct_map text : _remove_punct text = map punct_char text.
Proof. apply remove_punct_map_from. Qed.

Lemma squeeze_run_end x s :
  is_space x = true ->
  squeeze true s = squeeze false (snd (run_end is_space x s)).
Proof.
  intros _. revert x. induction s as [|y s IH]; intros x; [reflexivity|].
  simpl. destruct (is_space y) eqn:Hy.
  - apply IH.
  - simpl. now rewrite Hy.
Qed.

Lemma match_spaces prev x s :
  match_at re_spaces prev (x :: s)
  = if is_space x
    then Some (Some (fst (run_end is_space x s)), snd (run_end is_space x s))
    else None.
Proof.
  unfold match_at, re_spaces. rewrite m_plus_cls.
  destruct (is_space x) eqn:Hx.
  - now apply run_cls_final.
  - now apply run_cls_stop.
Qed.

Lemma spaces_squeeze_from n : forall prev s,
  length s <= n -> subs re_spaces (lit " ") prev s = squeeze false s.
Proof.
  induction n as [|n IH]; intros prev [|x s] Hlen; try reflexivity.
  - simpl in Hlen. lia.
  - simpl in Hlen. rewrite subs_cons, match_spaces.
    cbn [squeeze]. destruct (is_space x) eqn:Hx.
    + pose proof (run_end_length is_space x s) as Hrun.
      replace (length (snd (run_end is_space x s)) <? S (length s)) with true
        by (symmetry; apply Nat.ltb_lt; lia).
      rewrite IH by lia. cbn [lit list_ascii_of_string app].
      now rewrite (squeeze_run_end x s Hx).
    + now rewrite IH by lia.
Qed.

Lemma collapse_whitespace_squeeze text :
  collapse_whitespace text = strip (squeeze false text).
Proof.
  unfold collapse_whitespace. rewrite sub_subs.
  now rewrite (spaces_squeeze_from (length text)).
Qed.

Lemma bnd_after_digit l rest :
  is_digit l = true -> m Bnd (Some l) rest final = bnd_end l rest.
Proof.
  intros Hl. unfold bnd_end. cbn [m word_at].
  rewrite (digit_is_word l Hl). reflexivity.
Qed.

Lemma bnd_inside_run a b s :
  is_digit a = true -> is_digit b = true ->
  m Bnd (Some a) (b :: s) final = None.
Proof.
  intros Ha Hb. cbn. now rewrite (digit_is_word a Ha), (digit_is_word b Hb).
Qed.

Lemma match_decimal_part l rest :
  m (Cat (Cls is_sep) (Plus (Cls is_digit))) (Some l) rest
    (fun p s => m Bnd p s final)
  = decimal_part rest.
Proof.
  unfold decimal_part. rewrite m_cat, m_cls.
  destruct rest as [|c t]; [reflexivity|].
  destruct (is_sep c).
  - rewrite m_plus_cls. destruct t as [|y t]; [reflexivity|].
    cbn [andb]. destruct (is_digit y) eqn:Hy; [|now apply run_cls_stop].
    rewrite run_cls_maximal;
      [|intros; cbv beta; now apply bnd_inside_run|exact Hy].
    apply bnd_after_digit. now apply run_end_last.
  - destruct t as [|y t]; reflexivity.
Qed.

Lemma match_number prev s : match_at re_number prev s = number_match prev s.
Proof.
  unfold match_at, re_number, number_match. fold final.
  rewrite m_cat, m_bnd, m_cat, m_plus_cls.
  destruct s as [|x s].
  - cbn. destruct (xorb (word_at prev) false); reflexivity.
  - cbn [hd_error word_at].
    destruct (is_digit x) eqn:Hx.
    + rewrite (digit_is_word x Hx), xorb_true_r, andb_true_r.
      destruct (negb (word_at prev)); [|reflexivity].
      rewrite run_cls_maximal; [| |exact Hx].
      * rewrite m_cat, m_opt, match_decimal_part.
        rewrite bnd_after_digit by now apply run_end_last. reflexivity.
      * intros a b t Ha Hb. cbv beta.
        rewrite m_cat, m_opt, m_cat, m_cls, (digit_not_sep b Hb).
        now apply bnd_inside_run.
    + rewrite run_cls_stop by exact Hx. rewrite andb_false_r.
      destruct (xorb (word_at prev) (is_word x)); reflexivity.
Qed.

Ltac fold_run :=
  match goal with
  | |- context [plus_loop ?f final ?n ?p ?s] =>
      change (plus_loop f final n p s)
        with (m (Plus (Cls not_space)) p s final);
      rewrite m_plus_cls
  end.

Ltac next_char s :=
  let c := fresh "c" in
  destruct s as [|c s]; [reflexivity|];
  cbn -[plus_loop run_end not_space].

Ltac is_char c x :=
  destruct (Ascii.eqb_spec c x); [subst c|];
  cbn -[plus_loop run_end not_space]; try reflexivity.

Ltac url_body s :=
  let y := fresh "y" in
  destruct s as [|y s]; [reflexivity|];
  fold_run; unfold final; cbn -[run_end run_cls not_space];
  let H := fresh "H" in
  destruct (not_space y) eqn:H;
  [ rewrite (run_cls_final not_space y s H);
    repeat (rewrite run_end_step by (first [exact H | reflexivity]));
    reflexivity
  | rewrite (run_cls_stop not_space _ y s H); reflexivity ].

Lemma match_url prev s : match_at re_url prev s = url_match s.
Proof.
  unfold match_at, re_url, url_match, url_start, chars, lit. fold final.
  destruct s as [|c1 s]; [reflexivity|].
  cbn -[plus_loop run_end not_space].
  destruct (Ascii.eqb_spec c1 "h"); [subst c1|].
  - cbn -[plus_loop run_end not_space].
    next_char s. is_char c "t"%char.
    next_char s. is_char c "t"%char.
    next_char s. is_char c "p"%char.
    next_char s. destruct (Ascii.eqb_spec c "s"); [subst c|].
    + cbn -[plus_loop run_end not_space].
      next_char s. is_char c ":"%char.
      next_char s. is_char c "/"%char.
      next_char s. is_char c "/"%char.
      url_body s.
    + cbn -[plus_loop run_end not_space].
      is_char c ":"%char.
      next_char s. is_char c "/"%char.
      next_char s. is_char c "/"%char.
      url_body s.
  - cbn -[plus_loop run_end not_space].
    is_char c1 "w"%char.
    next_char s. is_char c "w"%char.
    next_char s. is_char c "w"%char.
    next_char s. is_char c "."%char.
    url_body s.
Qed.

(** ** Texts in which a pattern has no match *)

Lemma subs_free r repl st :
  (forall prev s, st prev s = false -> match_at r prev s = None) ->
  forall s prev, free st prev s -> subs r repl prev s = s.
Proof.
  intros Hst. induction s as [|x s IH]; intros prev [H0 H].
  - rewrite subs_nil. now rewrite (Hst _ _ H0).
  - rewrite subs_cons. rewrite (Hst _ _ H0). now rewrite (IH _ H).
Qed.

Lemma free_app st prev a b : free st prev (a ++ b) ->
  free st (match rev a with x :: _ => Some x | [] => prev end) b.
Proof.
  revert prev. induction a as [|x a IH]; intros prev H; [exact H|].
  destruct H as [_ H]. apply IH in H. simpl rev.
  destruct (rev a) as [|y r] eqn:Hr; simpl; exact H.
Qed.



Section WhitespaceLocal.

(** A test that looks at the word character before the position and at
    the run of non-whitespace characters from it on, and at nothing else. *)
Variable st : option ascii -> str -> bool.
Hypothesis st_nil : forall prev, st prev [] = false.
Hypothesis st_space :
  forall prev x s, is_space x = true -> st prev (x :: s) = false.
Hypothesis st_prev :
  forall prev prev' s, word_at prev = word_at prev' -> st prev s = st prev' s.
Hypothesis st_tok : forall prev s, st prev s = st prev (tok s).

Lemma free_prev prev prev' s :
  word_at prev = word_at prev' -> free st prev s -> free st prev' s.
Proof.
  intros Hw. destruct s as [|x s]; intros [H0 H]; split; auto;
    now rewrite <- (st_prev prev prev').
Qed.

Lemma tok_squeeze s : tok (squeeze false s) = tok s.
Proof.
  induction s as [|x s IH]; [reflexivity|].
  simpl. destruct (is_space x) eqn:Hx; simpl.
  - reflexivity.
  - now rewrite Hx, IH.
Qed.

Lemma free_squeeze s : forall b prev prev',
  word_at prev = word_at prev' ->
  (b = true -> word_at prev' = false) ->
  free st prev s -> free st prev' (squeeze b s).
Proof.
  induction s as [|x s IH]; intros b prev prev' Hw Hb [H0 H].
  - simpl. split; [apply st_nil|exact I].
  - cbn [squeeze]. destruct (is_space x) eqn:Hx.
    + destruct b.
      * apply (IH true (Some x) prev'); auto.
        simpl. rewrite (space_not_word x Hx). symmetry. now apply Hb.
      * split; [now apply st_space|].
        apply (IH true (Some x) (Some " "%char)); auto.
        simpl. now rewrite (space_not_word x Hx).
    + split.
      * rewrite <- (st_prev prev prev') by exact Hw.
        rewrite st_tok. cbn [tok]. rewrite Hx, tok_squeeze.
        rewrite st_tok in H0. cbn [tok] in H0. now rewrite Hx in H0.
      * apply (IH false (Some x) (Some x)); auto. discriminate.
Qed.

Lemma free_lstrip s : forall prev,
  word_at prev = false -> free st prev s -> free st None (lstrip s).
Proof.
  induction s as [|x s IH]; intros prev Hw H.
  - simpl. split; [apply st_nil|exact I].
  - cbn [lstrip]. destruct (is_space x) eqn:Hx.
    + destruct H as [_ H]. apply (IH (Some x)); [|exact H].
      simpl. now apply space_not_word.
    + now apply (free_prev prev None).
Qed.

Lemma tok_rstrip s : tok (rstrip s) = tok s.
Proof.
  induction s as [|x s IH]; [reflexivity|].
  cbn [rstrip]. destruct (rstrip s) as [|y k] eqn:Hr.
  - destruct (is_space x) eqn:Hx; cbn [tok]; rewrite Hx; [reflexivity|].
    now rewrite <- IH.
  - change (tok (x :: y :: k))
      with (if is_space x then [] else x :: tok (y :: k)).
    now rewrite IH.
Qed.

Lemma free_rstrip s : forall prev, free st prev s -> free st prev (rstrip s).
Proof.
  induction s as [|x s IH]; intros prev [H0 H]; [split; auto|].
  assert (Hhead : st prev (rstrip (x :: s)) = false).
  { rewrite st_tok, tok_rstrip, <- st_tok. exact H0. }
  specialize (IH _ H). revert Hhead. cbn [rstrip].
  destruct (rstrip s) as [|y k].
  - destruct (is_space x); intros Hhead; split; auto.
  - intros Hhead. split; auto.
Qed.

Lemma free_collapse s :
  free st None s -> free st None (strip (squeeze false s)).
Proof.
  intros H. unfold strip. apply free_rstrip.
  apply (free_lstrip _ None); [reflexivity|].
  apply (free_squeeze s false None None); auto; discriminate.
Qed.



End WhitespaceLocal.

(** ** Texts without a URL *)

Lemma pmatch_tok q : Forall off_space q -> forall s, pmatch q (tok s) = pmatch q s.
Proof.
  induction 1 as [|f q Hf Hq IH]; intros s; [destruct s; reflexivity|].
  destruct s as [|x s]; [reflexivity|].
  cbn [tok]. destruct (is_space x) eqn:Hx.
  - cbn [pmatch]. destruct (f x) eqn:Hfx; [|reflexivity].
    apply Hf in Hfx. congruence.
  - cbn [pmatch]. now rewrite IH.
Qed.

Lemma pmatch_mono q u v : pmatch q u = true -> pmatch q (u ++ v) = true.
Proof.
  revert u. induction q as [|f q IH]; intros [|x u]; simpl; auto;
    [discriminate|].
  intros H. apply andb_true_iff in H as [H1 H2]. now rewrite H1, IH.
Qed.

Lemma pmatch_nth q : forall s i f,
  pmatch q s = true -> nth_error q i = Some f ->
  exists c, nth_error s i = Some c /\ f c = true.
Proof.
  induction q as [|g q IH]; intros [|x s] [|i] f H Hi; simpl in *;
    try discriminate.
  - injection Hi as <-. apply andb_true_iff in H as [H1 _]. eauto.
  - apply andb_true_iff in H as [_ H2]. eauto.
Qed.

Lemma off_space_chars w :
  forallb not_space (lit w) = true ->
  Forall off_space (chars w ++ [not_space]).
Proof.
  unfold chars. induction (lit w) as [|a l IH]; simpl; intros H.
  - constructor; [|constructor]. intros c Hc. now apply negb_true_iff.
  - apply andb_true_iff in H as [Ha Hl]. constructor; [|now apply IH].
    intros c Hc. apply Ascii.eqb_eq in Hc. subst c. now apply negb_true_iff.
Qed.

Lemma url_start_tok s : url_start (tok s) = url_start s.
Proof.
  unfold url_start.
  now rewrite !pmatch_tok by (apply off_space_chars; reflexivity).
Qed.

Lemma url_start_mono u v : url_start u = true -> url_start (u ++ v) = true.
Proof.
  unfold url_start. intros H.
  apply orb_true_iff in H as [H|H]; [apply orb_true_iff in H as [H|H]|];
    rewrite (pmatch_mono _ u v H); rewrite ?orb_true_r; reflexivity.
Qed.

Lemma url_start_space x s : is_space x = true -> url_start (x :: s) = false.
Proof. intros Hx. rewrite <- url_start_tok. cbn [tok]. now rewrite Hx. Qed.

Lemma url_start_mark s :
  url_start s = true -> In "."%char s \/ In ":"%char s.
Proof.
  unfold url_start. intros H.
  apply orb_true_iff in H as [H|H]; [apply orb_true_iff in H as [H|H]|].
  - destruct (pmatch_nth _ s 5 _ H eq_refl) as (c & Hc & Heq).
    apply Ascii.eqb_eq in Heq. subst c. right. eapply nth_error_In, Hc.
  - destruct (pmatch_nth _ s 4 _ H eq_refl) as (c & Hc & Heq).
    apply Ascii.eqb_eq in Heq. subst c. right. eapply nth_error_In, Hc.
  - destruct (pmatch_nth _ s 3 _ H eq_refl) as (c & Hc & Heq).
    apply Ascii.eqb_eq in Heq. subst c. left. eapply nth_error_In, Hc.
Qed.

Lemma url_match_start s : url_match s = None <-> url_start s = false.
Proof.
  unfold url_match. destruct s as [|x s]; [split; reflexivity|].
  destruct (url_start (x :: s)); split; congruence.
Qed.

Lemma url_st_no_match prev s :
  url_st prev s = false -> match_at re_url prev s = None.
Proof. rewrite match_url. apply url_match_start. Qed.

Lemma url_free_prev prev prev' s : free url_st prev s -> free url_st prev' s.
Proof. destruct s; intros [H0 H]; split; auto. Qed.

(** A substitution whose replacement begins with whitespace leaves the
    first run of non-whitespace characters as it is, or cuts it short. *)
Lemma tok_subs r repl w repl' s : forall prev,
  repl = w :: repl' -> is_space w = true ->
  exists v, tok s = tok (subs r repl prev s) ++ v.
Proof.
  intros prev -> Hw. revert prev.
  induction s as [|x s IH]; intros prev.
  - rewrite subs_nil. destruct (match_at r prev []); simpl;
      [rewrite Hw|]; now exists [].
  - rewrite subs_cons.
    destruct (match_at r prev (x :: s)) as [[prev' rest]|].
    + destruct (length rest <? S (length s)); cbn [app tok]; rewrite Hw;
        now exists (tok (x :: s)).
    + cbn [tok]. destruct (is_space x); [now exists []|].
      destruct (IH (Some x)) as [v Hv]. exists v. simpl. now rewrite <- Hv.
Qed.

Lemma url_start_subs r repl w repl' prev x s :
  repl = w :: repl' -> is_space w = true ->
  url_start (x :: s) = false ->
  url_start (x :: subs r repl prev s) = false.
Proof.
  intros Hrepl Hw H.
  destruct (url_start (x :: subs r repl prev s)) eqn:Hs; [|reflexivity].
  rewrite <- url_start_tok in Hs. rewrite <- url_start_tok in H.
  cbn [tok] in Hs, H. destruct (is_space x); [discriminate|].
  destruct (tok_subs r repl w repl' s prev Hrepl Hw) as [v Hv].
  rewrite Hv in H. apply (url_start_mono _ v) in Hs. simpl in Hs. congruence.
Qed.

Lemma url_free_after_replacement repl o :
  forallb (fun c => negb (Ascii.eqb c "h" || Ascii.eqb c "w")) repl = true ->
  free url_st None o -> forall prev, free url_st prev (repl ++ o).
Proof.
  induction repl as [|c repl IH]; intros H Ho prev.
  - now apply (url_free_prev None).
  - simpl in H. apply andb_true_iff in H as [Hc H]. split; [|now apply IH].
    apply negb_true_iff, orb_false_iff in Hc as [Hh Hw].
    unfold url_st, url_start, chars, lit. cbn. now rewrite Hh, Hw.
Qed.

Lemma url_free_replace_urls n : forall s prev prev',
  length s <= n -> free url_st prev' (subs re_url (lit " URL ") prev s).
Proof.
  induction n as [|n IH]; intros [|x s] prev prev' Hlen;
    try (simpl in Hlen; lia); try (split; [reflexivity|exact I]).
  simpl in Hlen. rewrite subs_cons, match_url. unfold url_match.
  destruct (url_start (x :: s)) eqn:Hstart.
  - pose proof (run_end_length not_space x s) as Hrun.
    replace (length (snd (run_end not_space x s)) <? S (length s)) with true
      by (symmetry; apply Nat.ltb_lt; lia).
    apply url_free_after_replacement; [reflexivity|]. apply IH. lia.
  - split; [|apply IH; lia].
    now apply (url_start_subs _ _ " "%char (lit "URL ")).
Qed.

(** ** Texts without a number *)

Lemma number_match_start prev s :
  number_match prev s = None <-> num_start prev s = false.
Proof.
  unfold number_match, num_start. destruct s as [|x s]; [tauto|].
  destruct (negb (word_at prev) && is_digit x); [|tauto].
  unfold bnd_end at 1. cbn [andb].
  destruct (snd (run_end is_digit x s)) as [|c rest] eqn:Hrest.
  - simpl. split; discriminate.
  - cbn [hd_error word_at]. destruct (is_word c) eqn:Hc; cbn [negb].
    + assert (Hs : is_sep c = false).
      { destruct (is_sep c) eqn:Hs; [|reflexivity].
        apply sep_not_word in Hs. congruence. }
      unfold decimal_part. destruct rest as [|y t]; [tauto|].
      rewrite Hs. tauto.
    + destruct (decimal_part (c :: rest)); split; discriminate.
Qed.

Lemma num_st_no_match prev s :
  num_start prev s = false -> match_at re_number prev s = None.
Proof. rewrite match_number. apply number_match_start. Qed.

Lemma run_end_suffix p x s : exists mid, s = mid ++ snd (run_end p x s).
Proof.
  revert x. induction s as [|y s IH]; intros x; [now exists []|].
  simpl. destruct (p y).
  - destruct (IH y) as [mid Hmid]. exists (y :: mid). simpl. now f_equal.
  - now exists [].
Qed.

Lemma bnd_end_some l rest e :
  bnd_end l rest = Some e -> snd e = rest /\ word_at (hd_error rest) = false.
Proof.
  unfold bnd_end. destruct (word_at (hd_error rest)); [discriminate|].
  intros [= <-]. auto.
Qed.

Lemma number_match_rest prev s e :
  number_match prev s = Some e ->
  word_at (hd_error (snd e)) = false
  /\ exists c mid, s = c :: mid ++ snd e.
Proof.
  unfold number_match. destruct s as [|x s]; [discriminate|].
  destruct (negb (word_at prev) && is_digit x); [|discriminate].
  destruct (run_end_suffix is_digit x s) as [mid Hmid].
  destruct (decimal_part (snd (run_end is_digit x s))) as [e'|] eqn:Hdec.
  - intros [= ->]. unfold decimal_part in Hdec.
    destruct (snd (run_end is_digit x s)) as [|c [|y t]]; try discriminate.
    destruct (is_sep c && is_digit y); [|discriminate].
    apply bnd_end_some in Hdec as [Hsnd Hw].
    destruct (run_end_suffix is_digit y t) as [mid' Hmid'].
    rewrite Hsnd. split; [exact Hw|].
    exists x, (mid ++ c :: y :: mid').
    rewrite Hmid, Hmid' at 1. rewrite <- app_assoc. reflexivity.
  - intros He. apply bnd_end_some in He as [Hsnd Hw].
    rewrite Hsnd. split; [exact Hw|]. exists x, mid. now rewrite <- Hmid.
Qed.

Lemma num_start_nondigit prev x s :
  is_digit x = false -> num_start prev (x :: s) = false.
Proof. intros H. unfold num_start. now rewrite H, andb_false_r. Qed.

Lemma num_start_space prev x s :
  is_space x = true -> num_start prev (x :: s) = false.
Proof.
  intros H. apply num_start_nondigit.
  destruct (is_digit x) eqn:Hd; [|reflexivity].
  apply digit_not_space in Hd. congruence.
Qed.

Lemma num_start_prev prev prev' s :
  word_at prev = word_at prev' -> num_start prev s = num_start prev' s.
Proof. intros H. unfold num_start. now rewrite H. Qed.

Lemma run_end_tok x s :
  word_at (hd_error (snd (run_end is_digit x (tok s))))
  = word_at (hd_error (snd (run_end is_digit x s))).
Proof.
  revert x. induction s as [|y s IH]; intros x; [reflexivity|].
  cbn [tok]. destruct (is_space y) eqn:Hy.
  - simpl. destruct (is_digit y) eqn:Hd.
    + apply digit_not_space in Hd. congruence.
    + simpl. now rewrite (space_not_word y Hy).
  - simpl. destruct (is_digit y); [apply IH|reflexivity].
Qed.

Lemma num_start_tok prev s : num_start prev s = num_start prev (tok s).
Proof.
  destruct s as [|x s]; [reflexivity|].
  cbn [tok]. destruct (is_space x) eqn:Hx.
  - now apply num_start_space.
  - unfold num_start. now rewrite run_end_tok.
Qed.

Lemma num_free_prev prev prev' s :
  word_at prev = word_at prev' ->
  free num_start prev s -> free num_start prev' s.
Proof.
  intros Hw. destruct s as [|x s]; intros [H0 H]; split; auto.
  now rewrite <- (num_start_prev prev prev').
Qed.

Lemma free_first st prev prev' s :
  st prev' s = false -> free st prev s -> free st prev' s.
Proof. destruct s; intros H0 [_ H]; split; auto. Qed.

Lemma replace_numbers_copy prev x s :
  num_start prev (x :: s) = false ->
  subs re_number (lit " NUMBER ") prev (x :: s)
  = x :: subs re_number (lit " NUMBER ") (Some x) s.
Proof. intros H. now rewrite subs_cons, (num_st_no_match _ _ H). Qed.

(** Inside a word nothing is replaced: the digits that follow a word
    character and the word character after them are copied. *)
Lemma replace_numbers_in_word s : forall x,
  is_word x = true ->
  word_at (hd_error (snd (run_end is_digit x s))) = true ->
  word_at (hd_error (snd (run_end is_digit x
             (subs re_number (lit " NUMBER ") (Some x) s)))) = true.
Proof.
  induction s as [|y s IH]; intros x Hx H; [discriminate|].
  rewrite replace_numbers_copy
    by (unfold num_start; cbn [word_at]; now rewrite Hx).
  simpl in *. destruct (is_digit y) eqn:Hy.
  - apply IH; [now apply digit_is_word|exact H].
  - exact H.
Qed.

Lemma replace_numbers_after_match pl rest prev :
  word_at (hd_error rest) = false ->
  num_start prev (subs re_number (lit " NUMBER ") pl rest) = false.
Proof.
  destruct rest as [|c rest]; intros Hw;
    [now rewrite subs_nil, match_number|].
  assert (Hc : is_digit c = false).
  { destruct (is_digit c) eqn:Hd; [|reflexivity].
    apply digit_is_word in Hd. simpl in Hw. congruence. }
  rewrite replace_numbers_copy by now apply num_start_nondigit.
  now apply num_start_nondigit.
Qed.

Lemma num_free_after_replacement repl o :
  forallb (fun c => negb (is_digit c)) repl = true ->
  (forall prev, free num_start prev o) ->
  forall prev, free num_start prev (repl ++ o).
Proof.
  induction repl as [|c repl IH]; intros H Ho prev; [apply Ho|].
  simpl in H. apply andb_true_iff in H as [Hc H]. split; [|now apply IH].
  apply num_start_nondigit. now apply negb_true_iff.
Qed.

Lemma match_shorter (c : ascii) (mid rest s : str) :
  c :: s = c :: mid ++ rest -> (length rest <? S (length s)) = true.
Proof.
  intros [= ->]. apply Nat.ltb_lt. rewrite length_app. lia.
Qed.

Lemma num_free_replace_numbers n : forall s prev,
  length s <= n ->
  free num_start prev (subs re_number (lit " NUMBER ") prev s).
Proof.
  induction n as [|n IH]; intros [|x s] prev Hlen;
    try (simpl in Hlen; lia);
    try (rewrite subs_nil, match_number; split; [reflexivity|exact I]).
  simpl in Hlen. rewrite subs_cons, match_number.
  destruct (number_match prev (x :: s)) as [[pl rest]|] eqn:Hm.
  - apply number_match_rest in Hm as (Hw & c & mid & Heq). simpl in Hw, Heq.
    assert (Hx : c = x) by congruence. subst c.
    rewrite (match_shorter x mid rest s Heq).
    injection Heq as ->. rewrite length_app in Hlen.
    apply num_free_after_replacement; [reflexivity|].
    intros prev'. apply (free_first _ pl).
    + now apply replace_numbers_after_match.
    + apply IH. lia.
  - apply number_match_start in Hm. split; [|apply IH; lia].
    unfold num_start in *.
    destruct (negb (word_at prev)); [|reflexivity].
    destruct (is_digit x) eqn:Hx; [|reflexivity].
    cbn [andb] in *. apply negb_false_iff in Hm. apply negb_false_iff.
    apply replace_numbers_in_word; [now apply digit_is_word|exact Hm].
Qed.

Lemma url_free_replace_numbers n : forall s prev prev',
  length s <= n -> free url_st prev' s ->
  free url_st prev' (subs re_number (lit " NUMBER ") prev s).
Proof.
  induction n as [|n IH]; intros [|x s] prev prev' Hlen Hfree;
    try (simpl in Hlen; lia);
    try (rewrite subs_nil, match_number; split; [reflexivity|exact I]).
  simpl in Hlen. rewrite subs_cons, match_number.
  destruct (number_match prev (x :: s)) as [[pl rest]|] eqn:Hm.
  - apply number_match_rest in Hm as (Hw & c & mid & Heq). simpl in Hw, Heq.
    assert (Hx : c = x) by congruence. subst c.
    rewrite (match_shorter x mid rest s Heq).
    change (x :: mid ++ rest) with ((x :: mid) ++ rest) in Heq.
    rewrite Heq in Hfree. apply free_app in Hfree.
    injection Heq as ->. rewrite length_app in Hlen.
    apply url_free_after_replacement; [reflexivity|].
    apply IH; [lia|]. eapply url_free_prev, Hfree.
  - destruct Hfree as [H0 Hfree]. split; [|apply IH; [lia|exact Hfree]].
    now apply (url_start_subs _ _ " "%char (lit "NUMBER ")).
Qed.

(** Punctuation removal keeps digits and word characters as they are. *)
Lemma punct_char_digit c : is_digit (punct_char c) = is_digit c.
Proof. each_char c. Qed.

Lemma punct_char_word c : is_word (punct_char c) = is_word c.
Proof. each_char c. Qed.

Lemma run_end_punct x s :
  snd (run_end is_digit (punct_char x) (map punct_char s))
  = map punct_char (snd (run_end is_digit x s)).
Proof.
  revert x. induction s as [|y s IH]; intros x; [reflexivity|].
  simpl. rewrite punct_char_digit. destruct (is_digit y); [apply IH|].
  reflexivity.
Qed.

Lemma num_start_punct prev s :
  num_start prev (map punct_char s) = num_start prev s.
Proof.
  destruct s as [|x s]; [reflexivity|].
  unfold num_start. cbn [map]. rewrite punct_char_digit, run_end_punct.
  destruct (snd (run_end is_digit x s)) as [|c rest]; [reflexivity|].
  cbn [map hd_error word_at]. now rewrite punct_char_word.
Qed.

Lemma num_free_remove_punct s : forall prev,
  free num_start prev s -> free num_start prev (map punct_char s).
Proof.
  induction s as [|x s IH]; intros prev [H0 H]; [split; auto|].
  split.
  - change (punct_char x :: map punct_char s) with (map punct_char (x :: s)).
    now rewrite num_start_punct.
  - apply (num_free_prev (Some x));
      [cbn [word_at]; now rewrite punct_char_word|].
    now apply IH.
Qed.

(** ** Texts without punctuation, lowercased texts *)

Lemma punct_char_clean c :
  is_word (punct_char c) || is_space (punct_char c) = true.
Proof. each_char c. Qed.

Lemma clean_remove_punct s : clean (map punct_char s).
Proof.
  induction s as [|x s IH]; constructor; [apply punct_char_clean|exact IH].
Qed.

Lemma remove_punct_clean s : clean s -> map punct_char s = s.
Proof.
  induction 1 as [|x s Hx Hs IH]; [reflexivity|].
  cbn [map]. rewrite IH. unfold punct_char. now rewrite Hx.
Qed.

Lemma clean_url_free s : clean s -> forall prev, free url_st prev s.
Proof.
  induction 1 as [|x s Hx Hs IH]; intros prev; [split; auto|].
  split; [|apply IH].
  unfold url_st. destruct (url_start (x :: s)) eqn:Hstart; [|reflexivity].
  assert (Hall : clean (x :: s)) by now constructor.
  unfold clean in Hall. rewrite Forall_forall in Hall.
  apply url_start_mark in Hstart as [Hin|Hin];
    apply Hall in Hin; discriminate.
Qed.

Lemma lower_lowered s : lowered s -> lower s = s.
Proof.
  induction 1 as [|x s Hx Hs IH]; [reflexivity|].
  unfold lower in *. cbn [map]. now rewrite Hx, IH.
Qed.

Lemma lowered_lower s : lowered (lower s).
Proof.
  induction s as [|x s IH]; constructor; [apply lower_char_idem|exact IH].
Qed.

Lemma lowered_remove_punct s : lowered s -> lowered (map punct_char s).
Proof.
  induction 1 as [|x s Hx Hs IH]; constructor; [|exact IH].
  unfold punct_char. destruct (negb (is_word x || is_space x));
    [reflexivity|exact Hx].
Qed.

(** ** Whitespace collapse *)

Section CollapseForall.

Variable Q : ascii -> Prop.
Hypothesis Q_space : Q " "%char.

Lemma Forall_squeeze s : forall b, Forall Q s -> Forall Q (squeeze b s).
Proof.
  induction s as [|x s IH]; intros b H; [constructor|].
  inversion H as [|? ? Hx Hs]; subst. cbn [squeeze].
  destruct (is_space x); [destruct b|]; auto.
Qed.

Lemma Forall_lstrip s : Forall Q s -> Forall Q (lstrip s).
Proof.
  induction 1 as [|x s Hx Hs IH]; [constructor|].
  cbn [lstrip]. destruct (is_space x); auto.
Qed.

Lemma Forall_rstrip s : Forall Q s -> Forall Q (rstrip s).
Proof.
  induction 1 as [|x s Hx Hs IH]; [constructor|].
  cbn [rstrip]. destruct (rstrip s); [destruct (is_space x)|]; auto.
Qed.

Lemma Forall_collapse s : Forall Q s -> Forall Q (strip (squeeze false s)).
Proof.
  intros H. unfold strip. now apply Forall_rstrip, Forall_lstrip, Forall_squeeze.
Qed.

End CollapseForall.

Lemma plain_spaces_squeeze s : forall b, plain_spaces (squeeze b s).
Proof.
  induction s as [|x s IH]; intros b; [constructor|].
  cbn [squeeze]. destruct (is_space x) eqn:Hx; [destruct b|];
    try apply IH; constructor; auto; apply IH.
Qed.

Lemma plain_spaces_collapse s : plain_spaces (strip (squeeze false s)).
Proof.
  unfold strip, plain_spaces.
  apply Forall_rstrip, Forall_lstrip, plain_spaces_squeeze.
Qed.

Lemma plain_spaces_no_newline s : plain_spaces s -> ~ In nl s.
Proof.
  intros H Hin. unfold plain_spaces in H. rewrite Forall_forall in H.
  destruct (H nl Hin) as [Hn|Hn]; discriminate.
Qed.

Lemma tidy_squeeze s : forall b, tidy b (squeeze b s).
Proof.
  induction s as [|x s IH]; intros b; [exact I|].
  cbn [squeeze]. destruct (is_space x) eqn:Hx.
  - destruct b; [apply IH|]. cbn [tidy].
    change (is_space " ") with true. cbv iota. auto.
  - cbn [tidy]. rewrite Hx. apply IH.
Qed.

Lemma squeeze_tidy s : forall b, tidy b s -> squeeze b s = s.
Proof.
  induction s as [|x s IH]; intros b H; [reflexivity|].
  cbn [squeeze tidy] in *. destruct (is_space x).
  - destruct H as (-> & -> & H). now rewrite IH.
  - now rewrite IH.
Qed.

Lemma tidy_weaken s : tidy true s -> tidy false s.
Proof.
  destruct s as [|x s]; [auto|]. cbn [tidy].
  destruct (is_space x); [intros (_ & H & _); discriminate|auto].
Qed.

Lemma tidy_lstrip s : tidy false s -> tidy false (lstrip s).
Proof.
  destruct s as [|x s]; [auto|]. cbn [tidy lstrip].
  destruct (is_space x) eqn:Hx.
  - intros (_ & _ & H). destruct s as [|y s]; [exact I|].
    cbn [tidy lstrip] in *. destruct (is_space y) eqn:Hy.
    + destruct H as (_ & H & _). discriminate.
    + cbn [tidy]. now rewrite Hy.
  - intros H. cbn [tidy]. now rewrite Hx.
Qed.

Lemma tidy_rstrip s : forall b, tidy b s -> tidy b (rstrip s).
Proof.
  induction s as [|x s IH]; intros b H; [exact I|].
  cbn [rstrip tidy] in *. destruct (is_space x) eqn:Hx.
  - destruct H as (Hx' & Hb & H). specialize (IH true H).
    destruct (rstrip s) as [|y k]; [exact I|].
    cbn [tidy]. rewrite Hx. auto.
  - specialize (IH false H).
    destruct (rstrip s) as [|y k]; cbn [tidy]; rewrite Hx; auto.
Qed.

Lemma head_not_space_lstrip s : head_not_space (lstrip s).
Proof.
  induction s as [|x s IH]; [exact I|].
  cbn [lstrip]. destruct (is_space x) eqn:Hx; [exact IH|exact Hx].
Qed.

Lemma head_not_space_rstrip s : head_not_space s -> head_not_space (rstrip s).
Proof.
  destruct s as [|x s]; [auto|]. cbn [rstrip head_not_space]. intros Hx.
  rewrite Hx. destruct (rstrip s); exact Hx.
Qed.

Lemma lstrip_head_not_space s : head_not_space s -> lstrip s = s.
Proof.
  destruct s as [|x s]; [auto|]. cbn [lstrip head_not_space].
  now intros ->.
Qed.

Lemma rstrip_idem s : rstrip (rstrip s) = rstrip s.
Proof.
  induction s as [|x s IH]; [reflexivity|].
  cbn [rstrip]. destruct (rstrip s) as [|y k] eqn:Hr.
  - destruct (is_space x) eqn:Hx; [reflexivity|].
    cbn [rstrip]. now rewrite Hx.
  - change (rstrip (x :: y :: k))
      with (match rstrip (y :: k) with
            | [] => if is_space x then [] else [x]
            | kept => x :: kept
            end).
    now rewrite IH.
Qed.

Lemma collapse_whitespace_idem s :
  collapse_whitespace (collapse_whitespace s) = collapse_whitespace s.
Proof.
  rewrite !collapse_whitespace_squeeze.
  assert (Htidy : tidy false (strip (squeeze false s))).
  { unfold strip. apply tidy_rstrip, tidy_lstrip, tidy_squeeze. }
  rewrite (squeeze_tidy _ _ Htidy).
  unfold strip at 1.
  rewrite lstrip_head_not_space.
  - unfold strip. apply rstrip_idem.
  - unfold strip. apply head_not_space_rstrip, head_not_space_lstrip.
Qed.

(** ** [split] and [join] *)

Lemma lstrip_squeeze s : forall b, lstrip (squeeze b s) = squeeze true s.
Proof.
  induction s as [|x s IH]; intros b; [reflexivity|].
  cbn [squeeze]. destruct (is_space x) eqn:Hx.
  - destruct b; [apply IH|]. cbn [lstrip].
    change (is_space " ") with true. cbv iota. apply IH.
  - cbn [lstrip]. now rewrite Hx.
Qed.

Lemma rstrip_app a b :
  rstrip (a ++ b)
  = match rstrip b with
    | [] => rstrip a
    | kept => a ++ kept
    end.
Proof.
  induction a as [|x a IH]; [simpl; now destruct (rstrip b)|].
  change ((x :: a) ++ b) with (x :: (a ++ b)). cbn [rstrip]. rewrite IH.
  destruct (rstrip b) as [|y k]; [reflexivity|].
  destruct a; reflexivity.
Qed.

Lemma rstrip_snoc a c : is_space c = false -> rstrip (a ++ [c]) = a ++ [c].
Proof. intros Hc. rewrite rstrip_app. cbn [rstrip]. now rewrite Hc. Qed.

Lemma rev_cons_not_nil (c : ascii) (cur : str) : rev (c :: cur) <> [].
Proof. simpl. now destruct (rev cur). Qed.

(** [text.split()] yields no empty string. *)
Lemma split_ws_from_no_empty s : forall cur, ~ In [] (split_ws_from cur s).
Proof.
  induction s as [|c s IH]; intros cur; cbn [split_ws_from].
  - destruct cur as [|c0 cur]; [intros []|].
    intros [H|[]]. now apply (rev_cons_not_nil c0 cur).
  - destruct (is_space c); [|apply IH].
    destruct cur as [|c0 cur]; [apply IH|].
    intros [H|H]; [now apply (rev_cons_not_nil c0 cur)|].
    now apply IH in H.
Qed.

Lemma join_cons_cons sep p q ps :
  join sep (p :: q :: ps) = p ++ sep ++ join sep (q :: ps).
Proof. reflexivity. Qed.

Lemma join_not_nil sep t l : t <> [] -> join sep (t :: l) <> [].
Proof.
  intros Ht. destruct l as [|q l]; [exact Ht|].
  rewrite join_cons_cons. destruct t; [congruence|discriminate].
Qed.

Lemma join_split_from s :
  join (lit " ") (split_ws_from [] s) = rstrip (squeeze true s)
  /\ forall c cur,
       is_space c = false ->
       join (lit " ") (split_ws_from (c :: cur) s)
       = rstrip (rev (c :: cur) ++ squeeze false s).
Proof.
  induction s as [|x s [IH1 IH2]].
  - split; [reflexivity|]. intros c cur Hc.
    cbn [split_ws_from join squeeze]. rewrite app_nil_r.
    cbn [rev]. now rewrite rstrip_snoc.
  - split.
    + cbn [split_ws_from squeeze]. destruct (is_space x) eqn:Hx;
        [exact IH1|].
      now rewrite (IH2 x [] Hx).
    + intros c cur Hc. cbn [split_ws_from squeeze].
      destruct (is_space x) eqn:Hx.
      * rewrite rstrip_app. cbn [rstrip]. rewrite <- IH1.
        change (is_space " ") with true. cbv iota.
        destruct (split_ws_from [] s) as [|t l] eqn:Hs.
        { cbn [join rev]. now rewrite rstrip_snoc. }
        rewrite join_cons_cons.
        assert (Ht : t <> []).
        { intros ->. apply (split_ws_from_no_empty s []).
          rewrite Hs. now left. }
        pose proof (join_not_nil (lit " ") t l Ht) as Hj.
        destruct (join (lit " ") (t :: l)) eqn:Ej;
          [exfalso; exact (Hj Ej)|reflexivity].
      * rewrite (IH2 x (c :: cur) Hx).
        change (rev (x :: c :: cur)) with (rev (c :: cur) ++ [x]).
        now rewrite <- app_assoc.
Qed.

Lemma join_split_squeeze s :
  join (lit " ") (split_ws s) = rstrip (squeeze true s).
Proof. apply join_split_from. Qed.

Lemma strip_idem s : strip (strip s) = strip s.
Proof.
  unfold strip. rewrite lstrip_head_not_space.
  - apply rstrip_idem.
  - apply head_not_space_rstrip, head_not_space_lstrip.
Qed.

Lemma split_ws_from_token t : forall cur s,
  forallb not_space t = true ->
  split_ws_from cur (t ++ s) = split_ws_from (rev t ++ cur) s.
Proof.
  induction t as [|c t IH]; intros cur s H; [reflexivity|].
  simpl in H. apply andb_true_iff in H as [Hc Ht].
  apply negb_true_iff in Hc.
  change ((c :: t) ++ s) with (c :: (t ++ s)). cbn [split_ws_from].
  rewrite Hc, (IH (c :: cur) s Ht). cbn [rev]. now rewrite <- app_assoc.
Qed.

Lemma rev_not_nil (t : str) : t <> [] -> rev t <> [].
Proof.
  intros Ht Hr. apply Ht. apply (f_equal (@rev ascii)) in Hr.
  now rewrite rev_involutive in Hr.
Qed.

Lemma split_ws_token_end t :
  t <> [] -> forallb not_space t = true -> split_ws_from [] t = [t].
Proof.
  intros Ht Hns. pose proof (split_ws_from_token t [] [] Hns) as H.
  rewrite !app_nil_r in H. rewrite H. cbn [split_ws_from].
  pose proof (rev_not_nil t Ht) as Hr.
  destruct (rev t) as [|c r] eqn:Er; [congruence|].
  now rewrite <- Er, rev_involutive.
Qed.

Lemma split_ws_token_space t rest :
  t <> [] -> forallb not_space t = true ->
  split_ws_from [] (t ++ " "%char :: rest) = t :: split_ws_from [] rest.
Proof.
  intros Ht Hns. rewrite (split_ws_from_token t [] _ Hns), app_nil_r.
  cbn [split_ws_from]. change (is_space " ") with true. cbv iota.
  pose proof (rev_not_nil t Ht) as Hr.
  destruct (rev t) as [|c r] eqn:Er; [congruence|].
  now rewrite <- Er, rev_involutive.
Qed.

Lemma split_ws_join ts :
  Forall (fun t => t <> [] /\ forallb not_space t = true) ts ->
  split_ws (join (lit " ") ts) = ts.
Proof.
  unfold split_ws. induction 1 as [|t ts [Ht Hns] Hts IH]; [reflexivity|].
  destruct ts as [|q ts].
  - cbn [join]. now apply split_ws_token_end.
  - rewrite join_cons_cons.
    change (lit " " ++ join (lit " ") (q :: ts))
      with (" "%char :: join (lit " ") (q :: ts)).
    rewrite split_ws_token_space by assumption. now rewrite IH.
Qed.

(** ** Header stripping *)

Lemma match_blank_line prev s :
  match_at re_blank_line prev s
  = match blank_match s with
    | Some post => Some (Some nl, post)
    | None => None
    end.
Proof.
  unfold match_at, re_blank_line, blank_match, eat_terminator, eat_nl.
  destruct s as [|c1 s]; [reflexivity|]. cbn.
  destruct (Ascii.eqb_spec c1 cr) as [->|H1].
  - destruct s as [|c2 s]; [reflexivity|]. cbn.
    destruct (Ascii.eqb_spec c2 nl) as [->|H2]; [|reflexivity].
    destruct s as [|c3 s]; [reflexivity|]. cbn.
    destruct (Ascii.eqb_spec c3 cr) as [->|H3].
    + destruct s as [|c4 s]; [reflexivity|]. cbn.
      destruct (Ascii.eqb_spec c4 nl) as [->|H4]; reflexivity.
    + destruct (Ascii.eqb_spec c3 nl) as [->|H4]; reflexivity.
  - destruct (Ascii.eqb_spec c1 nl) as [->|H2]; [|reflexivity].
    destruct s as [|c3 s]; [reflexivity|]. cbn.
    destruct (Ascii.eqb_spec c3 cr) as [->|H3].
    + destruct s as [|c4 s]; [reflexivity|]. cbn.
      destruct (Ascii.eqb_spec c4 nl) as [->|H4]; reflexivity.
    + destruct (Ascii.eqb_spec c3 nl) as [->|H4]; reflexivity.
Qed.

Lemma search_blank_line prev s :
  search re_blank_line prev s
  = match find_blank s with
    | Some (pre, post) => Some (pre, (Some nl, post))
    | None => None
    end.
Proof.
  revert prev. induction s as [|x s IH]; intros prev.
  - reflexivity.
  - cbn [search find_blank]. rewrite match_blank_line.
    destruct (blank_match (x :: s)); [reflexivity|].
    rewrite IH. destruct (find_blank s) as [[pre post]|]; reflexivity.
Qed.

Lemma strip_headers_find text :
  _strip_headers text
  = match find_blank text with
    | Some (_, post) => post
    | None => text
    end.
Proof.
  unfold _strip_headers, split1. rewrite search_blank_line.
  destruct (find_blank text) as [[pre post]|]; reflexivity.
Qed.

Lemma blank_match_separator sep post :
  In sep separators -> blank_match (sep ++ post) = Some post.
Proof.
  intros [<-|[<-|[<-|[<-|[]]]]]; reflexivity.
Qed.

Lemma blank_match_inv s post :
  blank_match s = Some post -> exists sep, In sep separators /\ s = sep ++ post.
Proof.
  unfold blank_match, eat_terminator, eat_nl, separators.
  destruct s as [|c1 s]; [discriminate|].
  destruct (Ascii.eqb_spec c1 cr) as [->|H1].
  - destruct s as [|c2 s]; [discriminate|].
    destruct (Ascii.eqb_spec c2 nl) as [->|H2]; [|discriminate].
    destruct s as [|c3 s]; [discriminate|].
    destruct (Ascii.eqb_spec c3 cr) as [->|H3].
    + destruct s as [|c4 s]; [discriminate|].
      destruct (Ascii.eqb_spec c4 nl) as [->|H4]; [|discriminate].
      intros [= <-]. exists [cr; nl; cr; nl]. simpl. auto 6.
    + destruct (Ascii.eqb_spec c3 nl) as [->|H4]; [|discriminate].
      intros [= <-]. exists [cr; nl; nl]. simpl. auto.
  - destruct (Ascii.eqb_spec c1 nl) as [->|H2]; [|discriminate].
    destruct s as [|c3 s]; [discriminate|].
    destruct (Ascii.eqb_spec c3 cr) as [->|H3].
    + destruct s as [|c4 s]; [discriminate|].
      destruct (Ascii.eqb_spec c4 nl) as [->|H4]; [|discriminate].
      intros [= <-]. exists [nl; cr; nl]. simpl. auto.
    + destruct (Ascii.eqb_spec c3 nl) as [->|H4]; [|discriminate].
      intros [= <-]. exists [nl; nl]. simpl. auto.
Qed.

Lemma find_blank_none text :
  (forall pre sep post, In sep separators -> text <> pre ++ sep ++ post) ->
  find_blank text = None.
Proof.
  induction text as [|x text IH]; intros Hno.
  - reflexivity.
  - cbn [find_blank].
    destruct (blank_match (x :: text)) as [post|] eqn:Hb.
    + apply blank_match_inv in Hb as (sep & Hin & Heq).
      exfalso. exact (Hno [] sep post Hin Heq).
    + rewrite IH; [reflexivity|].
      intros pre sep post Hin Heq.
      apply (Hno (x :: pre) sep post Hin). simpl. now rewrite Heq.
Qed.

Lemma find_blank_first pre sep post :
  In sep separators ->
  (forall pre' sep' post',
      In sep' separators -> pre ++ sep ++ post = pre' ++ sep' ++ post' ->
      length pre <= length pre') ->
  find_blank (pre ++ sep ++ post) = Some (pre, post).
Proof.
  intros Hin. induction pre as [|x pre IH]; intros Hmin.
  - simpl app. destruct (sep ++ post) as [|c rest] eqn:Hs.
    + destruct Hin as [<-|[<-|[<-|[<-|[]]]]]; discriminate.
    + cbn [find_blank]. rewrite <- Hs.
      now rewrite (blank_match_separator sep post Hin).
  - change ((x :: pre) ++ sep ++ post) with (x :: (pre ++ sep ++ post)).
    cbn [find_blank].
    destruct (blank_match (x :: pre ++ sep ++ post)) as [post'|] eqn:Hb.
    + apply blank_match_inv in Hb as (sep' & Hin' & Heq).
      specialize (Hmin [] sep' post' Hin' Heq). simpl in Hmin. lia.
    + rewrite IH; [reflexivity|].
      intros pre' sep' post' Hin' Heq.
      specialize (Hmin (x :: pre') sep' post' Hin').
      simpl in Hmin. rewrite Heq in Hmin. specialize (Hmin eq_refl). lia.
Qed.

Lemma find_blank_split s pre post :
  find_blank s = Some (pre, post) ->
  exists sep, In sep separators /\ s = pre ++ sep ++ post.
Proof.
  revert pre. induction s as [|x s IH]; intros pre.
  - cbn [find_blank]. destruct (blank_match []) as [p|] eqn:Hb; [|discriminate].
    intros [= <- <-]. now apply blank_match_inv.
  - cbn [find_blank]. destruct (blank_match (x :: s)) as [p|] eqn:Hb.
    + intros [= <- <-]. now apply blank_match_inv.
    + destruct (find_blank s) as [[pre' post']|] eqn:Hf; [|discriminate].
      intros [= <- <-]. destruct (IH pre' eq_refl) as (sep & Hin & ->).
      now exists sep.
Qed.

Lemma starts_with_self p s : starts_with p (p ++ s) = true.
Proof.
  induction p as [|a p IH]; [reflexivity|].
  simpl. now rewrite Ascii.eqb_refl.
Qed.

Lemma skipn_prefix (pre rest : str) : skipn (length pre) (pre ++ rest) = rest.
Proof. induction pre as [|x pre IH]; [reflexivity|exact IH]. Qed.

(** C3, as stated, fails: a line that holds one space is a line of
    whitespace only, and the program does not split there. *)
Lemma C3_line_of_spaces_is_no_split_point :
  let text := lit "From: a" ++ [nl] ++ lit " " ++ [nl] ++ lit "Body" in
  spec_strip_headers text = lit "Body"
  /\ _strip_headers text = text
  /\ _strip_headers text <> spec_strip_headers text.
Proof.
  cbv zeta. split; [reflexivity|]. split; [reflexivity|].
  vm_compute. discriminate.
Qed.

(** C3, amended: the text is split at the leftmost place where two line
    terminators ([\n] or [\r\n] each) follow one another, that is at the
    first empty line; the text after them is kept, and a text without such
    a place is left as it is. *)
Theorem C3_strip_headers_first_empty_line text :
  (forall pre sep post,
      text = pre ++ sep ++ post ->
      In sep separators ->
      (forall q sep', q < length pre -> In sep' separators ->
                      starts_with sep' (skipn q text) = false) ->
      _strip_headers text = post)
  /\ ((forall q sep', In sep' separators ->
                      starts_with sep' (skipn q text) = false) ->
      _strip_headers text = text).
Proof.
  split.
  - intros pre sep post -> Hin Hfirst.
    rewrite strip_headers_find, find_blank_first; [reflexivity|exact Hin|].
    intros pre' sep' post' Hin' Heq.
    destruct (Nat.le_gt_cases (length pre) (length pre')) as [Hle|Hlt];
      [exact Hle|].
    specialize (Hfirst (length pre') sep' Hlt Hin').
    rewrite Heq, skipn_prefix, starts_with_self in Hfirst. discriminate.
  - intros Hnone. rewrite strip_headers_find, find_blank_none; [reflexivity|].
    intros pre sep post Hin ->.
    specialize (Hnone (length pre) sep Hin).
    rewrite skipn_prefix, starts_with_self in Hnone. discriminate.
Qed.

Lemma C3_strip_headers_first_empty_line_witness :
  _strip_headers (lit "From: a" ++ [cr; nl; cr; nl] ++ lit "Body" ++ [nl; nl]
                  ++ lit "more")
  = lit "Body" ++ [nl; nl] ++ lit "more"
  /\ _strip_headers (lit "no empty line" ++ [nl] ++ lit "here")
     = lit "no empty line" ++ [nl] ++ lit "here".
Proof.
  split.
  - apply (proj1 (C3_strip_headers_first_empty_line _)
             (lit "From: a") [cr; nl; cr; nl]
             (lit "Body" ++ [nl; nl] ++ lit "more")).
    + reflexivity.
    + simpl. auto 6.
    + intros q sep' Hq Hin.
      do 7 (destruct q as [|q];
            [destruct Hin as [<-|[<-|[<-|[<-|[]]]]]; reflexivity|]).
      simpl in Hq. lia.
  - apply (proj2 (C3_strip_headers_first_empty_line _)).
    intros q sep' Hin.
    do 18 (destruct q as [|q];
           [destruct Hin as [<-|[<-|[<-|[<-|[]]]]]; reflexivity|]).
    rewrite skipn_all2 by (vm_compute; lia).
    destruct Hin as [<-|[<-|[<-|[<-|[]]]]]; reflexivity.
Defined.

Lemma separator_newline sep : In sep separators -> In nl sep.
Proof. intros [<-|[<-|[<-|[<-|[]]]]]; simpl; auto. Qed.

Lemma strip_headers_no_newline s : ~ In nl s -> _strip_headers s = s.
Proof.
  intros Hnl. rewrite strip_headers_find, find_blank_none; [reflexivity|].
  intros pre sep post Hin ->. apply Hnl.
  apply in_or_app. right. apply in_or_app. left.
  now apply separator_newline.
Qed.

(** ** The normalizer on the examples of the specification *)

(** C2, as stated, fails: the output holds no token [url]; the URL is
    replaced after the text has been lowercased, by a token in capitals. *)
Lemma C2_no_lowercase_url_token :
  (forall stem,
      transform1 stem default_preprocessor (lit "visit http://x.com/y now")
      = lit "visit URL now")
  /\ contains (lit "url") (lit "visit URL now") = false.
Proof. split; [intros stem|]; reflexivity. Qed.

(** C2, amended: the output for "visit http://x.com/y now" is
    "visit URL now": it holds the token [URL] and not the URL itself. *)
Theorem C2_url_replaced_by_URL_token stem :
  let out :=
    transform1 stem default_preprocessor (lit "visit http://x.com/y now") in
  out = lit "visit URL now"
  /\ split_ws out = [lit "visit"; lit "URL"; lit "now"]
  /\ contains (lit "URL") out = true
  /\ contains (lit "http://x.com/y") out = false.
Proof. repeat split; reflexivity. Qed.

(** C4, as stated, fails: the output holds no token [number]; the numbers
    are replaced after the text has been lowercased, by a token in
    capitals. *)
Lemma C4_no_lowercase_number_token :
  (forall stem,
      transform1 stem default_preprocessor (lit "call 555-1234 or 42.5 now")
      = lit "call NUMBER NUMBER or NUMBER now")
  /\ contains (lit "number") (lit "call NUMBER NUMBER or NUMBER now") = false.
Proof. split; [intros stem|]; reflexivity. Qed.

(** C4, amended: in "call 555-1234 or 42.5 now" the numbers 555, 1234 and
    42.5 are each replaced by the token [NUMBER], and the words "call",
    "or" and "now" stay. *)
Theorem C4_numbers_replaced_by_NUMBER_token stem :
  let out :=
    transform1 stem default_preprocessor (lit "call 555-1234 or 42.5 now") in
  out = lit "call NUMBER NUMBER or NUMBER now"
  /\ split_ws out
     = [lit "call"; lit "NUMBER"; lit "NUMBER"; lit "or"; lit "NUMBER";
        lit "now"]
  /\ contains (lit "42.5") out = false.
Proof. repeat split; reflexivity. Qed.

(** ** Strings read back from a NumPy array *)


Lemma strip_trailing_nul_no_nul s : no_nul s -> strip_trailing_nul s = s.
Proof.
  induction 1 as [|x s Hx Hs IH]; [reflexivity|].
  cbn [strip_trailing_nul]. rewrite IH. destruct s as [|y k]; [|reflexivity].
  destruct (Ascii.eqb_spec x nul); [contradiction|reflexivity].
Qed.

Lemma Forall_strip_trailing_nul (Q : ascii -> Prop) s :
  Forall Q s -> Forall Q (strip_trailing_nul s).
Proof.
  induction 1 as [|x s Hx Hs IH]; [constructor|].
  cbn [strip_trailing_nul]. destruct (strip_trailing_nul s) as [|y k].
  - destruct (Ascii.eqb x nul); auto.
  - auto.
Qed.



(** ** Texts without [\x00] *)

Lemma lower_char_nul c : Ascii.eqb (lower_char c) nul = Ascii.eqb c nul.
Proof. each_char c. Qed.

Lemma no_nul_lower s : no_nul s -> no_nul (lower s).
Proof.
  induction 1 as [|x s Hx Hs IH]; [constructor|]. constructor; [|exact IH].
  intros H. apply Hx. apply Ascii.eqb_eq. rewrite <- lower_char_nul.
  now apply Ascii.eqb_eq.
Qed.

Lemma clean_no_nul s : clean s -> no_nul s.
Proof.
  induction 1 as [|x s Hx Hs IH]; constructor; [|exact IH].
  intros ->. discriminate Hx.
Qed.

Section ForallSteps.

Variable Q : ascii -> Prop.

Lemma Forall_strip_headers s : Forall Q s -> Forall Q (_strip_headers s).
Proof.
  intros H. rewrite strip_headers_find.
  destruct (find_blank s) as [[pre post]|] eqn:Hf; [|exact H].
  destruct (find_blank_split s pre post Hf) as (sep & _ & ->).
  apply Forall_app in H as [_ H]. now apply Forall_app in H as [_ H].
Qed.

Lemma Forall_replace_urls n : forall s prev,
  length s <= n -> Forall Q (lit " URL ") -> Forall Q s ->
  Forall Q (subs re_url (lit " URL ") prev s).
Proof.
  induction n as [|n IH]; intros [|x s] prev Hlen Hrepl Hs;
    try (simpl in Hlen; lia); try constructor.
  simpl in Hlen. rewrite subs_cons, match_url. unfold url_match.
  inversion Hs as [|? ? Hx Hs']; subst.
  destruct (url_start (x :: s)).
  - pose proof (run_end_length not_space x s) as Hrun.
    replace (length (snd (run_end not_space x s)) <? S (length s)) with true
      by (symmetry; apply Nat.ltb_lt; lia).
    apply Forall_app. split; [exact Hrepl|]. apply IH; [lia|exact Hrepl|].
    destruct (run_end_suffix not_space x s) as [mid Hmid].
    rewrite Hmid in Hs'. now apply Forall_app in Hs'.
  - constructor; [exact Hx|]. apply IH; [lia|exact Hrepl|exact Hs'].
Qed.

Lemma Forall_replace_numbers n : forall s prev,
  length s <= n -> Forall Q (lit " NUMBER ") -> Forall Q s ->
  Forall Q (subs re_number (lit " NUMBER ") prev s).
Proof.
  induction n as [|n IH]; intros [|x s] prev Hlen Hrepl Hs;
    try (simpl in Hlen; lia);
    try (rewrite subs_nil, match_number; constructor).
  simpl in Hlen. rewrite subs_cons, match_number.
  inversion Hs as [|? ? Hx Hs']; subst.
  destruct (number_match prev (x :: s)) as [[pl rest]|] eqn:Hm.
  - apply number_match_rest in Hm as (_ & c & mid & Heq). simpl in Heq.
    rewrite (match_shorter c mid rest s) by congruence.
    injection Heq as -> ->. rewrite length_app in Hlen.
    apply Forall_app. split; [exact Hrepl|]. apply IH; [lia|exact Hrepl|].
    now apply Forall_app in Hs'.
  - constructor; [exact Hx|]. apply IH; [lia|exact Hrepl|exact Hs'].
Qed.


End ForallSteps.

(** ** Tokens joined by spaces *)









(** ** Normalizing twice *)


Lemma replace_urls_free y : free url_st None y -> _replace_urls y = y.
Proof. apply (subs_free re_url (lit " URL ") url_st url_st_no_match). Qed.

Lemma replace_numbers_free y : free num_start None y -> _replace_numbers y = y.
Proof.
  apply (subs_free re_number (lit " NUMBER ") num_start num_st_no_match).
Qed.


Lemma url_free_collapse s :
  free url_st None s -> free url_st None (strip (squeeze false s)).
Proof.
  apply free_collapse.
  - reflexivity.
  - intros prev x t. apply url_start_space.
  - reflexivity.
  - intros prev t. unfold url_st. now rewrite url_start_tok.
Qed.

Lemma num_free_collapse s :
  free num_start None s -> free num_start None (strip (squeeze false s)).
Proof.
  apply free_collapse.
  - reflexivity.
  - apply num_start_space.
  - apply num_start_prev.
  - apply num_start_tok.
Qed.




(** Without stemming, the output holds no [\x00] when punctuation is
    removed, and when the input holds none. *)
Lemma transform1_no_nul stem self x :
  do_stemming self = false ->
  remove_punctuation self = true \/ no_nul x ->
  no_nul (transform1 stem self x).
Proof.
  intros Hstem H. unfold transform1, step. rewrite Hstem.
  rewrite collapse_whitespace_squeeze.
  apply Forall_collapse; [discriminate|].
  destruct (remove_punctuation self).
  { rewrite remove_punct_map. apply clean_no_nul, clean_remove_punct. }
  destruct H as [H|H]; [discriminate|].
  assert (H1 : no_nul (if strip_headers self then _strip_headers x else x)).
  { destruct (strip_headers self); [now apply Forall_strip_headers|exact H]. }
  set (x1 := if strip_headers self then _ else _) in *.
  assert (H2 : no_nul (if lowercase self then lower x1 else x1)).
  { destruct (lowercase self); [now apply no_nul_lower|exact H1]. }
  set (x2 := if lowercase self then _ else _) in *.
  assert (H3 : no_nul (if replace_urls self then _replace_urls x2 else x2)).
  { destruct (replace_urls self); [|exact H2].
    apply (Forall_replace_urls _ (length x2)); [apply le_n| |exact H2].
    repeat constructor; discriminate. }
  set (x3 := if replace_urls self then _ else _) in *.
  destruct (replace_numbers self); [|exact H3].
  apply (Forall_replace_numbers _ (length x3)); [apply le_n| |exact H3].
  repeat constructor; discriminate.
Qed.






(** The first side condition of the idempotence theorem cannot be
    dropped: whenever the text is lowercased and URLs or numbers are
    replaced, a second pass changes the output for "www.a 1". *)
Lemma idempotence_fails_when_tokens_are_lowercased stem self :
  do_stemming self = false ->
  lowercase self = true ->
  replace_urls self = true \/ replace_numbers self = true ->
  transform stem self (transform stem self [lit "www.a 1"])
  <> transform stem self [lit "www.a 1"].
Proof.
  destruct self as [h l u n p st]. cbn. intros -> -> H.
  destruct h, u, n, p; destruct H as [H|H]; try discriminate H;
    vm_compute; discriminate.
Qed.

(** Nor can the second: whenever punctuation is kept, the output for
    "a \x00" ends in [\x00]; the array gives "a " back, with the space at
    the end that a second pass strips. *)
Lemma idempotence_fails_on_trailing_nul stem self :
  do_stemming self = false ->
  remove_punctuation self = false ->
  transform stem self [lit "a " ++ [nul]] = [lit "a "]
  /\ transform stem self (transform stem self [lit "a " ++ [nul]])
     = [lit "a"].
Proof.
  destruct self as [h l u n p st]. cbn. intros -> ->.
  destruct h, l, u, n; split; reflexivity.
Qed.

(** With stemming, idempotence depends on the stemmer: one that drops
    the first character of a token on each call drops two characters in
    two passes. *)
Lemma idempotence_fails_for_unstable_stemmer self :
  do_stemming self = true ->
  transform (@tl ascii) self (transform (@tl ascii) self [lit "abc"])
  <> transform (@tl ascii) self [lit "abc"].
Proof.
  destruct self as [h l u n p st]. cbn. intros ->.
  destruct h, l, u, n, p; vm_compute; discriminate.
Qed.


Example keep_case_output :
  transform (fun t => t) keep_case
    [lit "From: a" ++ [nl; nl]
     ++ lit "Visit http://x.com/y or call 555-1234, 42.5  now"]
  = [lit "Visit URL or call NUMBER NUMBER NUMBER now"].
Proof. reflexivity. Qed.

Example with_stemming_output :
  transform four_letter_stem with_stemming
    [lit "Running  QUICKLY to www.x.com, 42 times!"]
  = [lit "runn quic to url numb time"].
Proof. reflexivity. Qed.

(** ** Prediction service *)

Lemma not_loaded_no_model g :
  reachable g -> _model_loaded g = false -> _model g = None.
Proof.
  induction 1 as [|env g Hg IH]; [reflexivity|].
  unfold load_model.
  destruct (_model_loaded g) eqn:Hl; simpl; [intros H; congruence|].
  destruct (path_exists env); simpl; [|discriminate].
  destruct (joblib_load env) as [|model []]; simpl; discriminate.
Qed.

Lemma load_model_cached g :
  _model_loaded g = true -> forall env, load_model env g = (g, _model g).
Proof. intros H env. unfold load_model. now rewrite H. Qed.

Lemma load_model_sets_flag env g :
  _model_loaded (fst (load_model env g)) = true.
Proof.
  unfold load_model.
  destruct (_model_loaded g) eqn:Hl; simpl; [exact Hl|].
  destruct (path_exists env); simpl; [|reflexivity].
  destruct (joblib_load env) as [|model []]; reflexivity.
Qed.

(** When the report printed after a successful load raises, [load_model]
    returns [None] once, and the pipeline it has stored from then on. *)
Lemma report_failure_keeps_pipeline env g model :
  _model_loaded g = false -> path_exists env = true ->
  joblib_load env = Loaded model true ->
  snd (load_model env g) = None
  /\ forall env', snd (load_model env' (fst (load_model env g))) = Some model.
Proof.
  intros Hflag Hpath Hload. unfold load_model at 1 3.
  rewrite Hflag, Hpath, Hload. simpl. split; reflexivity.
Qed.

(** With no pipeline in the globals, every prediction is the keyword
    heuristic with the placeholder confidence, and the globals stay as they
    are. *)
Lemma fallback_without_model g :
  _model_loaded g = true -> _model g = None ->
  forall env text,
    get_prediction_confidence env g text
    = (g, (fallback_classification text, placeholder_confidence)).
Proof.
  intros Hl Hm env text.
  unfold get_prediction_confidence, classify_email.
  rewrite (load_model_cached g Hl env), Hm.
  now rewrite (load_model_cached g Hl env), Hm.
Qed.

Lemma list_sum_filter_b2n (A : Type) (f : A -> bool) (l : list A) :
  list_sum (map (fun _ => 1) (filter f l))
  = list_sum (map (fun x => Nat.b2n (f x)) l).
Proof.
  induction l as [|x l IH]; [reflexivity|].
  simpl. destruct (f x); simpl; now rewrite IH.
Qed.

Lemma list_sum_b2n_le (A : Type) (f : A -> bool) (l : list A) :
  list_sum (map (fun x => Nat.b2n (f x)) l) <= length l.
Proof.
  induction l as [|x l IH]; [apply le_n|].
  simpl. destruct (f x); simpl; lia.
Qed.

Lemma scam_score_presence text :
  scam_score text
  = list_sum (map (fun keyword => Nat.b2n (contains keyword (lower text)))
                  scam_keywords).
Proof. unfold scam_score. apply list_sum_filter_b2n. Qed.

(** C5: without a pipeline, the score adds one per keyword that occurs in
    the lowercased text (so at most one per keyword, 23 at most), the label
    is "Spam" from a score of 3 on and "Not Spam" below, the confidence is
    0.85, and there is a result for every text. *)
Theorem C5_fallback_keyword_heuristic env g text :
  _model (fst (load_model env g)) = None ->
  scam_score text
  = list_sum (map (fun keyword => Nat.b2n (contains keyword (lower text)))
                  scam_keywords)
  /\ (forall keyword, Nat.b2n (contains keyword (lower text)) <= 1)
  /\ length scam_keywords = 23
  /\ scam_score text <= 23
  /\ snd (get_prediction_confidence env g text)
     = (if 3 <=? scam_score text then lit "Spam" else lit "Not Spam",
        placeholder_confidence).
Proof.
  intros Hnone.
  split; [apply scam_score_presence|].
  split; [intros keyword; destruct (contains keyword (lower text)); simpl; lia|].
  split; [reflexivity|].
  split.
  { rewrite scam_score_presence.
    change 23 with (length scam_keywords). apply list_sum_b2n_le. }
  assert (Hsnd : snd (load_model env g) = None).
  { revert Hnone. unfold load_model.
    destruct (_model_loaded g); simpl; [auto|].
    destruct (path_exists env); simpl; [|auto].
    destruct (joblib_load env) as [|model []]; simpl; auto; discriminate. }
  unfold get_prediction_confidence, classify_email.
  destruct (load_model env g) as [g' model'] eqn:Hload.
  simpl in Hsnd, Hnone. subst model'.
  assert (Hl : _model_loaded g' = true).
  { pose proof (load_model_sets_flag env g) as H. now rewrite Hload in H. }
  rewrite (load_model_cached g' Hl env), Hnone. reflexivity.
Qed.

Lemma C5_fallback_keyword_heuristic_witness :
  snd (get_prediction_confidence
         {| path_exists := false; joblib_load := LoadRaises |}
         initial_globals
         (lit "URGENT! verify your account now, click here, winner!"))
  = (lit "Spam", placeholder_confidence).
Proof.
  exact (proj2 (proj2 (proj2 (proj2
    (@C5_fallback_keyword_heuristic
       {| path_exists := false; joblib_load := LoadRaises |}
       initial_globals
       (lit "URGENT! verify your account now, click here, winner!")
       eq_refl))))).
Defined.

Lemma argmax_tie p : argmax [p; p] = Some 0.
Proof.
  unfold argmax, argmax_from.
  destruct (PrimFloat.is_nan p) eqn:Hnan; [reflexivity|].
  assert (Hle : PrimFloat.leb p p = true).
  { unfold PrimFloat.is_nan in Hnan. apply negb_false_iff in Hnan.
    rewrite eqb_spec in Hnan. rewrite leb_spec.
    unfold SpecFloat.SFeqb in Hnan. unfold SpecFloat.SFleb.
    destruct (SpecFloat.SFcompare (Prim2SF p) (Prim2SF p)) as [[]|];
      congruence. }
  now rewrite Hle.
Qed.

(** C6: when the pipeline gives the same probability to both classes, the
    label is "Not Spam" (index 0 wins the tie) and the confidence is that
    probability. *)
Theorem C6_argmax_tie_not_spam env g model text p :
  snd (load_model env g) = Some model ->
  predict_proba model text = Some [p; p] ->
  snd (get_prediction_confidence env g text) = (lit "Not Spam", p).
Proof.
  intros Hload Hproba.
  unfold get_prediction_confidence.
  destruct (load_model env g) as [g' model']. simpl in Hload. subst model'.
  rewrite Hproba, argmax_tie. reflexivity.
Qed.

Lemma C6_argmax_tie_not_spam_witness :
  snd (get_prediction_confidence
         {| path_exists := true; joblib_load := Loaded tied_model false |}
         initial_globals (lit "hello there, how are you"))
  = (lit "Not Spam", 0.5%float).
Proof.
  exact (@C6_argmax_tie_not_spam
           {| path_exists := true; joblib_load := Loaded tied_model false |}
           initial_globals tied_model (lit "hello there, how are you")
           0.5%float eq_refl eq_refl).
Defined.

Lemma load_model_again env g model :
  snd (load_model env g) = Some model ->
  forall env', load_model env' (fst (load_model env g))
               = (fst (load_model env g), Some model).
Proof.
  intros H env'.
  rewrite (load_model_cached _ (load_model_sets_flag env g)).
  f_equal. revert H. unfold load_model.
  destruct (_model_loaded g); simpl; [auto|].
  destruct (path_exists env); simpl; [|discriminate].
  destruct (joblib_load env) as [|m []]; simpl; auto; discriminate.
Qed.

(** C7: with a pipeline whose probability call fails while its plain
    prediction succeeds, the label is the plain prediction (1 is "Spam",
    anything else "Not Spam") and the confidence is 0.85. *)
Theorem C7_no_probability_uses_plain_prediction env g model text idx :
  snd (load_model env g) = Some model ->
  predict_proba model text = None ->
  predict model text = Some idx ->
  snd (get_prediction_confidence env g text)
  = (if Z.eqb idx 1 then lit "Spam" else lit "Not Spam", placeholder_confidence).
Proof.
  intros Hload Hproba Hpred.
  pose proof (load_model_again env g model Hload env) as Hagain.
  unfold get_prediction_confidence, classify_email.
  destruct (load_model env g) as [g' model']. simpl in *. subst model'.
  rewrite Hproba, Hagain, Hpred. reflexivity.
Qed.

Lemma C7_no_probability_uses_plain_prediction_witness :
  snd (get_prediction_confidence
         {| path_exists := true; joblib_load := Loaded (plain_model 1) false |}
         initial_globals (lit "free money, act now"))
  = (lit "Spam", placeholder_confidence)
  /\ snd (get_prediction_confidence
         {| path_exists := true; joblib_load := Loaded (plain_model 0) false |}
         initial_globals (lit "free money, act now"))
  = (lit "Not Spam", placeholder_confidence).
Proof.
  split.
  - exact (@C7_no_probability_uses_plain_prediction
             {| path_exists := true;
                joblib_load := Loaded (plain_model 1) false |}
             initial_globals (plain_model 1) (lit "free money, act now") 1%Z
             eq_refl eq_refl eq_refl).
  - exact (@C7_no_probability_uses_plain_prediction
             {| path_exists := true;
                joblib_load := Loaded (plain_model 0) false |}
             initial_globals (plain_model 0) (lit "free money, act now") 0%Z
             eq_refl eq_refl eq_refl).
Defined.

(** C8: when the first load finds no file, or [joblib.load] raises, the
    loaded flag is set and no pipeline is kept; from then on [load_model]
    returns [None] whatever the file system holds, without touching the
    globals, and every prediction is the keyword heuristic. *)
Theorem C8_failed_load_is_permanent env g :
  reachable g ->
  _model_loaded g = false ->
  path_exists env = false \/ joblib_load env = LoadRaises ->
  let g' := fst (load_model env g) in
  snd (load_model env g) = None
  /\ _model_loaded g' = true
  /\ (forall env', load_model env' g' = (g', None))
  /\ (forall env' text,
        get_prediction_confidence env' g' text
        = (g', (fallback_classification text, placeholder_confidence))).
Proof.
  intros Hreach Hflag Hfail g'.
  pose proof (not_loaded_no_model g Hreach Hflag) as Hnone.
  assert (Hload : load_model env g
                  = ({| _model := None; _model_loaded := true |}, None)).
  { unfold load_model. rewrite Hflag, Hnone.
    destruct (path_exists env); simpl; [|reflexivity].
    destruct Hfail as [Hfail|Hfail]; [discriminate|now rewrite Hfail]. }
  subst g'. rewrite Hload. simpl.
  split; [reflexivity|]. split; [reflexivity|].
  split; [intros env'; reflexivity|].
  intros env' text. now apply fallback_without_model.
Qed.

Lemma C8_failed_load_is_permanent_witness :
  let g' := fst (load_model {| path_exists := false; joblib_load := LoadRaises |}
                            initial_globals) in
  snd (load_model {| path_exists := false; joblib_load := LoadRaises |}
                  initial_globals) = None
  /\ _model_loaded g' = true
  /\ (forall env', load_model env' g' = (g', None))
  /\ (forall env' text,
        get_prediction_confidence env' g' text
        = (g', (fallback_classification text, placeholder_confidence))).
Proof.
  exact (@C8_failed_load_is_permanent
           {| path_exists := false; joblib_load := LoadRaises |}
           initial_globals reachable_initial eq_refl (or_introl eq_refl)).
Defined.







(** ** The [/predict] route *)

(** C9: a request without a body is not answered with status 400.
    [request.get_json()] raises on it, inside the [try] block, and the
    handler for [Exception] answers with status 500.  Every answer with
    status 400 is the answer to a body that [get_json] has parsed. *)
Theorem C9_missing_body_is_answered_500 env g :
  snd (predict_route env g GetJsonRaises) = internal_error_response
  /\ status (snd (predict_route env g GetJsonRaises)) = 500
  /\ (forall request,
        status (snd (predict_route env g request)) = 400 ->
        exists data, request = GotJson data).
Proof.
  split; [reflexivity|]. split; [reflexivity|].
  intros [data|] H; [now exists data|discriminate H].
Qed.

(** * Further properties of the code *)

(** ** The steps of the normalizer *)

(** X1: header stripping returns the text itself or what follows a
    separator in it: the result is a suffix of the text, shorter by two
    characters at least when it differs; a text without [\n] is returned
    as it is. *)
Theorem X1_strip_headers_suffix text :
  (exists pre, text = pre ++ _strip_headers text
               /\ (pre = [] \/ 2 <= length pre))
  /\ (~ In nl text -> _strip_headers text = text).
Proof.
  split; [|apply strip_headers_no_newline].
  rewrite strip_headers_find.
  destruct (find_blank text) as [[pre post]|] eqn:Hf.
  - apply find_blank_split in Hf as (sep & Hin & ->).
    exists (pre ++ sep). rewrite <- app_assoc. split; [reflexivity|].
    right. rewrite length_app.
    destruct Hin as [<-|[<-|[<-|[<-|[]]]]]; simpl; lia.
  - exists []. auto.
Qed.

Lemma X1_strip_headers_suffix_witness :
  _strip_headers (lit "Subject: hi, no header block here")
  = lit "Subject: hi, no header block here".
Proof.
  apply (proj2 (X1_strip_headers_suffix
                  (lit "Subject: hi, no header block here"))).
  vm_compute. intuition discriminate.
Defined.

(** X2: punctuation removal works character by character: a word
    character or a whitespace character stays where it is, any other
    character becomes a space; so the length of the text is kept, and a
    second removal changes nothing. *)
Theorem X2_remove_punct_charwise text :
  length (_remove_punct text) = length text
  /\ (forall i c,
        nth_error text i = Some c ->
        nth_error (_remove_punct text) i
        = Some (if is_word c || is_space c then c else " "%char))
  /\ _remove_punct (_remove_punct text) = _remove_punct text.
Proof.
  rewrite !remove_punct_map. split; [apply length_map|]. split.
  - intros i c Hc. rewrite nth_error_map, Hc. cbn [option_map].
    unfold punct_char. now destruct (is_word c || is_space c).
  - apply remove_punct_clean, clean_remove_punct.
Qed.

Lemma search_free r st :
  (forall prev s, st prev s = false -> match_at r prev s = None) ->
  forall s prev, free st prev s -> search r prev s = None.
Proof.
  intros Hst. induction s as [|x s IH]; intros prev [H0 H];
    cbn [search]; rewrite (Hst _ _ H0); [reflexivity|].
  now rewrite (IH _ H).
Qed.

(** X3: after URL replacement the URL pattern matches nowhere in the
    text, and replacing once more changes nothing. *)
Theorem X3_replace_urls_leaves_no_url text :
  search re_url None (_replace_urls text) = None
  /\ _replace_urls (_replace_urls text) = _replace_urls text.
Proof.
  assert (H : free url_st None (_replace_urls text)).
  { apply (url_free_replace_urls (length text)). apply le_n. }
  split.
  - now apply (search_free re_url url_st url_st_no_match).
  - now apply replace_urls_free.
Qed.

(** X4: after number replacement the number pattern matches nowhere in
    the text, and replacing once more changes nothing. *)
Theorem X4_replace_numbers_leaves_no_number text :
  search re_number None (_replace_numbers text) = None
  /\ _replace_numbers (_replace_numbers text) = _replace_numbers text.
Proof.
  assert (H : free num_start None (_replace_numbers text)).
  { apply (num_free_replace_numbers (length text)). apply le_n. }
  split.
  - now apply (search_free re_number num_start num_st_no_match).
  - now apply replace_numbers_free.
Qed.

Lemma search_none_free r st :
  (forall prev s, match_at r prev s = None -> st prev s = false) ->
  forall s prev, search r prev s = None -> free st prev s.
Proof.
  intros Hst. induction s as [|x s IH]; intros prev; cbn [search].
  - destruct (match_at r prev []) eqn:Hm; [discriminate|].
    intros _. split; [now apply Hst|exact I].
  - destruct (match_at r prev (x :: s)) eqn:Hm; [discriminate|].
    destruct (search r (Some x) s) as [[pre e]|] eqn:Hs; [discriminate|].
    intros _. split; [now apply Hst|now apply IH].
Qed.

(** X5: a text in which the URL pattern, or the number pattern, matches
    nowhere is left unchanged by the replacement. *)
Theorem X5_replacement_without_match text :
  (search re_url None text = None -> _replace_urls text = text)
  /\ (search re_number None text = None -> _replace_numbers text = text).
Proof.
  split; intros H.
  - apply replace_urls_free.
    apply (search_none_free re_url url_st); [|exact H].
    intros prev s Hm. rewrite match_url in Hm. now apply url_match_start.
  - apply replace_numbers_free.
    apply (search_none_free re_number num_start); [|exact H].
    intros prev s Hm. rewrite match_number in Hm.
    now apply number_match_start.
Qed.

Lemma X5_replacement_without_match_witness :
  _replace_urls (lit "see www. or http:// for v2.0a")
  = lit "see www. or http:// for v2.0a"
  /\ _replace_numbers (lit "item a1 and b_2 cost x9y")
     = lit "item a1 and b_2 cost x9y".
Proof.
  split.
  - exact (proj1 (X5_replacement_without_match
                    (lit "see www. or http:// for v2.0a")) eq_refl).
  - exact (proj2 (X5_replacement_without_match
                    (lit "item a1 and b_2 cost x9y")) eq_refl).
Defined.

(** ** Whitespace collapse, [split] and [join] *)

(** X6: the whitespace collapse at the end of [transform] (the
    substitution of [\s+] by a space, then [strip]) gives what
    [" ".join(text.split())], the split and join of [_stem], gives. *)
Theorem X6_collapse_is_join_of_split text :
  collapse_whitespace text = join (lit " ") (split_ws text).
Proof.
  rewrite collapse_whitespace_squeeze. unfold strip.
  rewrite lstrip_squeeze. symmetry. apply join_split_squeeze.
Qed.

Lemma head_not_space_strip_trailing_nul s :
  head_not_space s -> head_not_space (strip_trailing_nul s).
Proof.
  destruct s as [|x s]; [auto|]. cbn [strip_trailing_nul head_not_space].
  intros Hx. destruct (strip_trailing_nul s); [|exact Hx].
  destruct (Ascii.eqb x nul); [exact I|exact Hx].
Qed.

Lemma tidy_strip_trailing_nul s : forall b,
  tidy b s -> tidy b (strip_trailing_nul s).
Proof.
  induction s as [|x s IH]; intros b H; [exact I|].
  cbn [strip_trailing_nul tidy] in *. destruct (is_space x) eqn:Hx.
  - destruct H as (Hx' & Hb & H). specialize (IH true H).
    destruct (strip_trailing_nul s) as [|y k].
    + destruct (Ascii.eqb x nul); [exact I|]. cbn [tidy]. rewrite Hx. auto.
    + cbn [tidy]. rewrite Hx. auto.
  - specialize (IH false H).
    destruct (strip_trailing_nul s) as [|y k].
    + destruct (Ascii.eqb x nul); [exact I|]. cbn [tidy]. now rewrite Hx.
    + cbn [tidy]. now rewrite Hx.
Qed.

(** X7: every string of the array [transform] returns is free of line
    breaks and of whitespace at its head, and its words stand one space
    apart: a second whitespace collapse can only strip a space at its end.
    Such a space is there when the normalized text ended in a space and
    [\x00], which the array drops.  Without stemming and with punctuation
    removed no [\x00] is left: the string has no whitespace at either end
    and is its own words joined by single spaces. *)
Theorem X7_output_is_single_spaced stem self X :
  Forall (fun out =>
            ~ In nl out
            /\ lstrip out = out
            /\ collapse_whitespace out = rstrip out
            /\ (do_stemming self = false ->
                remove_punctuation self = true ->
                strip out = out /\ join (lit " ") (split_ws out) = out))
         (transform stem self X).
Proof.
  unfold transform, np_array. rewrite map_map. apply Forall_map.
  apply Forall_forall. intros x _.
  assert (Hc : exists z, transform1 stem self x = strip (squeeze false z)).
  { unfold transform1. eexists. now rewrite collapse_whitespace_squeeze. }
  destruct Hc as [z Hz].
  assert (Hhead : head_not_space (strip_trailing_nul (transform1 stem self x))).
  { rewrite Hz. apply head_not_space_strip_trailing_nul.
    apply head_not_space_rstrip, head_not_space_lstrip. }
  assert (Htidy : tidy false (strip_trailing_nul (transform1 stem self x))).
  { rewrite Hz. apply tidy_strip_trailing_nul.
    apply tidy_rstrip, tidy_lstrip, tidy_squeeze. }
  split; [|split; [|split]].
  - apply plain_spaces_no_newline. rewrite Hz.
    apply Forall_strip_trailing_nul, plain_spaces_collapse.
  - now apply lstrip_head_not_space.
  - rewrite collapse_whitespace_squeeze. unfold strip.
    now rewrite (squeeze_tidy _ _ Htidy), lstrip_head_not_space.
  - intros Hstem Hpun.
    rewrite strip_trailing_nul_no_nul
      by (apply transform1_no_nul; [exact Hstem|now left]).
    rewrite Hz. split; [apply strip_idem|].
    rewrite join_split_squeeze, <- (lstrip_squeeze _ false).
    fold (strip (squeeze false (strip (squeeze false z)))).
    rewrite <- !collapse_whitespace_squeeze.
    apply collapse_whitespace_idem.
Qed.

(** ** Whitespace-only texts *)

Lemma clean_of_spaces s : Forall (fun c => is_space c = true) s -> clean s.
Proof.
  induction 1 as [|x s Hx Hs IH]; constructor; [|exact IH].
  rewrite Hx. apply orb_true_r.
Qed.

Lemma url_free_of_spaces s :
  Forall (fun c => is_space c = true) s -> forall prev, free url_st prev s.
Proof.
  induction 1 as [|x s Hx Hs IH]; intros prev; [split; auto|].
  split; [now apply url_start_space|apply IH].
Qed.

Lemma num_free_of_spaces s :
  Forall (fun c => is_space c = true) s -> forall prev, free num_start prev s.
Proof.
  induction 1 as [|x s Hx Hs IH]; intros prev; [split; auto|].
  split; [now apply num_start_space|apply IH].
Qed.

Lemma split_ws_of_spaces s :
  Forall (fun c => is_space c = true) s -> split_ws s = [].
Proof.
  unfold split_ws. induction 1 as [|x s Hx Hs IH]; [reflexivity|].
  cbn [split_ws_from]. now rewrite Hx.
Qed.

Lemma spaces_through_steps self text :
  Forall (fun c => is_space c = true) text ->
  Forall (fun c => is_space c = true)
    (step (remove_punctuation self) _remove_punct
       (step (replace_numbers self) _replace_numbers
          (step (replace_urls self) _replace_urls
             (step (lowercase self) lower
                (step (strip_headers self) _strip_headers text))))).
Proof.
  intros H0.
  assert (H1 : Forall (fun c => is_space c = true)
                 (step (strip_headers self) _strip_headers text)).
  { unfold step. destruct (strip_headers self); [|exact H0].
    rewrite strip_headers_find.
    destruct (find_blank text) as [[pre post]|] eqn:Hf; [|exact H0].
    apply find_blank_split in Hf as (sep & _ & ->).
    apply Forall_app in H0 as [_ H0]. now apply Forall_app in H0 as [_ H0]. }
  set (x1 := step (strip_headers self) _strip_headers text) in *.
  assert (H2 : Forall (fun c => is_space c = true)
                 (step (lowercase self) lower x1)).
  { unfold step. destruct (lowercase self); [|exact H1].
    unfold lower. apply Forall_map.
    eapply Forall_impl; [|exact H1]. intros c Hc.
    now rewrite lower_char_space. }
  set (x2 := step (lowercase self) lower x1) in *.
  assert (H3 : step (replace_urls self) _replace_urls x2 = x2).
  { unfold step. destruct (replace_urls self); [|reflexivity].
    now apply replace_urls_free, url_free_of_spaces. }
  rewrite H3.
  assert (H4 : step (replace_numbers self) _replace_numbers x2 = x2).
  { unfold step. destruct (replace_numbers self); [|reflexivity].
    now apply replace_numbers_free, num_free_of_spaces. }
  rewrite H4.
  unfold step. destruct (remove_punctuation self); [|exact H2].
  rewrite remove_punct_map, remove_punct_clean; [exact H2|].
  now apply clean_of_spaces.
Qed.

(** X8: a text of whitespace only, the empty text included, is
    normalized to the empty text, whatever the configuration and the
    stemmer. *)
Theorem X8_whitespace_only_gives_empty stem self text :
  Forall (fun c => is_space c = true) text ->
  transform1 stem self text = [].
Proof.
  intros H. pose proof (spaces_through_steps self text H) as Hs.
  unfold transform1.
  set (x5 := step (remove_punctuation self) _remove_punct _) in *.
  assert (Hsplit : split_ws x5 = []) by now apply split_ws_of_spaces.
  assert (Hc : forall z, split_ws z = [] -> collapse_whitespace z = []).
  { intros z Hz. rewrite collapse_whitespace_squeeze. unfold strip.
    now rewrite lstrip_squeeze, <- join_split_squeeze, Hz. }
  unfold step at 1. destruct (do_stemming self).
  - unfold _stem. rewrite Hsplit. reflexivity.
  - now apply Hc.
Qed.

Lemma X8_whitespace_only_gives_empty_witness :
  transform1 (fun t => t) default_preprocessor
    (lit "  " ++ [cr; nl; cr; nl] ++ lit " ") = []
  /\ transform1 (fun t => t) keep_case [] = [].
Proof.
  split.
  - apply (X8_whitespace_only_gives_empty (fun t => t) default_preprocessor).
    repeat constructor.
  - apply (X8_whitespace_only_gives_empty (fun t => t) keep_case).
    constructor.
Defined.

(** ** What each enabled step guarantees of the output *)

Lemma transform1_without_stemming stem self x :
  do_stemming self = false ->
  transform1 stem self x
  = strip (squeeze false
      (step (remove_punctuation self) _remove_punct
         (step (replace_numbers self) _replace_numbers
            (step (replace_urls self) _replace_urls
               (step (lowercase self) lower
                  (step (strip_headers self) _strip_headers x)))))).
Proof.
  intros H. unfold transform1. rewrite H. unfold step at 1.
  apply collapse_whitespace_squeeze.
Qed.

(** X9: without stemming, when URL replacement is enabled the URL pattern
    matches nowhere in the output, whatever the other switches. *)
Theorem X9_output_has_no_url stem self x :
  do_stemming self = false -> replace_urls self = true ->
  search re_url None (transform1 stem self x) = None.
Proof.
  intros Hstem Hu. rewrite (transform1_without_stemming stem self x Hstem).
  apply (search_free re_url url_st url_st_no_match).
  apply url_free_collapse. rewrite Hu. unfold step at 3.
  set (x2 := step (lowercase self) lower _).
  unfold step. destruct (remove_punctuation self).
  - rewrite remove_punct_map. apply clean_url_free, clean_remove_punct.
  - destruct (replace_numbers self).
    + apply (url_free_replace_numbers (length (_replace_urls x2)));
        [apply le_n|].
      apply (url_free_replace_urls (length x2)). apply le_n.
    + apply (url_free_replace_urls (length x2)). apply le_n.
Qed.

Lemma X9_output_has_no_url_witness :
  search re_url None
    (transform1 (fun t => t) keep_case
       (lit "Go to HTTPS://A.B or https://a.b/c?d=1, www.x.org!"))
  = None.
Proof.
  exact (X9_output_has_no_url (fun t => t) keep_case
           (lit "Go to HTTPS://A.B or https://a.b/c?d=1, www.x.org!")
           eq_refl eq_refl).
Defined.

(** X10: without stemming, when number replacement is enabled the number
    pattern matches nowhere in the output, whatever the other switches. *)
Theorem X10_output_has_no_number stem self x :
  do_stemming self = false -> replace_numbers self = true ->
  search re_number None (transform1 stem self x) = None.
Proof.
  intros Hstem Hn. rewrite (transform1_without_stemming stem self x Hstem).
  apply (search_free re_number num_start num_st_no_match).
  apply num_free_collapse. rewrite Hn. unfold step at 2.
  set (x3 := step (replace_urls self) _replace_urls _).
  unfold step. destruct (remove_punctuation self).
  - rewrite remove_punct_map. apply num_free_remove_punct.
    apply (num_free_replace_numbers (length x3)). apply le_n.
  - apply (num_free_replace_numbers (length x3)). apply le_n.
Qed.

Lemma X10_output_has_no_number_witness :
  search re_number None
    (transform1 (fun t => t) default_preprocessor
       (lit "Pay 1,000.50 by 12/31 to acct 7-7 or v2"))
  = None.
Proof.
  exact (X10_output_has_no_number (fun t => t) default_preprocessor
           (lit "Pay 1,000.50 by 12/31 to acct 7-7 or v2")
           eq_refl eq_refl).
Defined.

(** X11: without stemming, when punctuation removal is enabled the output
    holds word characters and single spaces only. *)
Theorem X11_output_has_no_punctuation stem self x :
  do_stemming self = false -> remove_punctuation self = true ->
  Forall (fun c => is_word c = true \/ c = " "%char)
         (transform1 stem self x).
Proof.
  intros Hstem Hp.
  assert (Hplain : plain_spaces (transform1 stem self x)).
  { rewrite (transform1_without_stemming stem self x Hstem).
    apply plain_spaces_collapse. }
  assert (Hclean : clean (transform1 stem self x)).
  { rewrite (transform1_without_stemming stem self x Hstem).
    apply Forall_collapse; [reflexivity|].
    rewrite Hp. unfold step at 1. rewrite remove_punct_map.
    apply clean_remove_punct. }
  unfold plain_spaces, clean in *. rewrite Forall_forall in *.
  intros c Hin. specialize (Hplain c Hin). specialize (Hclean c Hin).
  destruct Hplain as [Hs|Hs]; [|now right].
  rewrite Hs, orb_false_r in Hclean. now left.
Qed.

Lemma X11_output_has_no_punctuation_witness :
  Forall (fun c => is_word c = true \/ c = " "%char)
    (transform1 (fun t => t) default_preprocessor
       (lit "Hello, world! (50% off) -- e-mail: a_b@c.d")).
Proof.
  exact (X11_output_has_no_punctuation (fun t => t) default_preprocessor
           (lit "Hello, world! (50% off) -- e-mail: a_b@c.d")
           eq_refl eq_refl).
Defined.

(** X12: without stemming, when lowercasing is enabled and neither URLs
    nor numbers are replaced, the output is in lower case: [lower] leaves
    it unchanged. *)
Theorem X12_output_is_lowercase stem self x :
  do_stemming self = false -> lowercase self = true ->
  replace_urls self = false -> replace_numbers self = false ->
  lower (transform1 stem self x) = transform1 stem self x.
Proof.
  intros Hstem Hl Hu Hn. apply lower_lowered.
  rewrite (transform1_without_stemming stem self x Hstem).
  apply Forall_collapse; [reflexivity|].
  rewrite Hl, Hu, Hn. unfold step at 2 3 4.
  unfold step. destruct (remove_punctuation self).
  - rewrite remove_punct_map. apply lowered_remove_punct, lowered_lower.
  - apply lowered_lower.
Qed.

Lemma X12_output_is_lowercase_witness :
  lower (transform1 (fun t => t)
           {| strip_headers := true; lowercase := true;
              replace_urls := false; replace_numbers := false;
              remove_punctuation := true; do_stemming := false |}
           (lit "Dear SIR, Visit HTTP://X.COM Now"))
  = transform1 (fun t => t)
      {| strip_headers := true; lowercase := true;
         replace_urls := false; replace_numbers := false;
         remove_punctuation := true; do_stemming := false |}
      (lit "Dear SIR, Visit HTTP://X.COM Now").
Proof.
  exact (X12_output_is_lowercase (fun t => t)
           {| strip_headers := true; lowercase := true;
              replace_urls := false; replace_numbers := false;
              remove_punctuation := true; do_stemming := false |}
           (lit "Dear SIR, Visit HTTP://X.COM Now")
           eq_refl eq_refl eq_refl eq_refl).
Defined.

(** ** Stemming *)

(** X13: when the stemmer turns every token of the text into a stem that
    is not empty and holds no whitespace, [_stem] gives one stem per token,
    in order, and the whitespace collapse that follows it changes
    nothing. *)
Theorem X13_stem_keeps_tokens (stem : str -> str) text :
  (forall t, In t (split_ws text) ->
             stem t <> [] /\ forallb not_space (stem t) = true) ->
  split_ws (_stem stem text) = map stem (split_ws text)
  /\ collapse_whitespace (_stem stem text) = _stem stem text.
Proof.
  intros Hstem.
  assert (Hsplit : split_ws (_stem stem text) = map stem (split_ws text)).
  { unfold _stem. apply split_ws_join. apply Forall_map.
    apply Forall_forall. exact Hstem. }
  split; [exact Hsplit|].
  rewrite collapse_whitespace_squeeze. unfold strip.
  rewrite lstrip_squeeze, <- join_split_squeeze, Hsplit. reflexivity.
Qed.

Lemma X13_stem_keeps_tokens_witness :
  split_ws (_stem (fun t => firstn 4 t) (lit "  running   quickly home "))
  = [lit "runn"; lit "quic"; lit "home"].
Proof.
  apply (proj1 (X13_stem_keeps_tokens (fun t => firstn 4 t)
                  (lit "  running   quickly home ")
                  ltac:(intros t Hin; vm_compute in Hin;
                        destruct Hin as [<-|[<-|[<-|[]]]];
                        (split; [discriminate|reflexivity])))).
Defined.

(** ** The prediction service *)

Lemma classify_email_label env g text :
  snd (classify_email env g text) = lit "Spam"
  \/ snd (classify_email env g text) = lit "Not Spam".
Proof.
  assert (Hfb : fallback_classification text = lit "Spam"
                \/ fallback_classification text = lit "Not Spam").
  { unfold fallback_classification.
    destruct (3 <=? scam_score text); auto. }
  unfold classify_email.
  destruct (load_model env g) as [g' [model|]]; cbn [snd]; [|exact Hfb].
  destruct (predict model text) as [idx|]; cbn [snd]; [|exact Hfb].
  destruct (Z.eqb idx 1); auto.
Qed.

Lemma get_prediction_confidence_label env g text :
  fst (snd (get_prediction_confidence env g text)) = lit "Spam"
  \/ fst (snd (get_prediction_confidence env g text)) = lit "Not Spam".
Proof.
  unfold get_prediction_confidence.
  destruct (load_model env g) as [g' [model|]].
  - destruct (predict_proba model text) as [proba|].
    + destruct (argmax proba) as [idx|].
      * destruct (nth_error proba idx) as [conf|].
        -- simpl. destruct (idx =? 1); auto.
        -- pose proof (classify_email_label env g' text) as H.
           destruct (classify_email env g' text). exact H.
      * pose proof (classify_email_label env g' text) as H.
        destruct (classify_email env g' text). exact H.
    + pose proof (classify_email_label env g' text) as H.
      destruct (classify_email env g' text). exact H.
  - pose proof (classify_email_label env g' text) as H.
    destruct (classify_email env g' text). exact H.
Qed.

(** X14: whatever the pipeline does, [classify_email] and
    [get_prediction_confidence] return the label "Spam" or the label
    "Not Spam". *)
Theorem X14_labels_are_spam_or_not_spam env g text :
  (snd (classify_email env g text) = lit "Spam"
   \/ snd (classify_email env g text) = lit "Not Spam")
  /\ (fst (snd (get_prediction_confidence env g text)) = lit "Spam"
      \/ fst (snd (get_prediction_confidence env g text)) = lit "Not Spam").
Proof.
  split.
  - apply classify_email_label.
  - apply get_prediction_confidence_label.
Qed.

(** X15: the pipeline is loaded once: after any call of [load_model] the
    flag is set, and every later call returns the stored pipeline and
    leaves the globals as they are, whatever the file system holds then. *)
Theorem X15_load_model_loads_once env g :
  let g1 := fst (load_model env g) in
  _model_loaded g1 = true
  /\ forall env', load_model env' g1 = (g1, _model g1).
Proof.
  cbv zeta. split; [apply load_model_sets_flag|].
  intros env'. apply load_model_cached, load_model_sets_flag.
Qed.

Lemma classify_email_globals env g text :
  fst (classify_email env g text) = fst (load_model env g).
Proof.
  unfold classify_email. destruct (load_model env g) as [g' [model|]];
    [destruct (predict model text)|]; reflexivity.
Qed.

Lemma load_model_twice env env' g :
  fst (load_model env' (fst (load_model env g))) = fst (load_model env g).
Proof.
  now rewrite (load_model_cached _ (load_model_sets_flag env g)).
Qed.

Lemma get_prediction_confidence_globals env g text :
  fst (get_prediction_confidence env g text) = fst (load_model env g).
Proof.
  unfold get_prediction_confidence.
  pose proof (load_model_twice env env g) as Htwice.
  pose proof (classify_email_globals env (fst (load_model env g)) text) as Hc.
  destruct (load_model env g) as [g' [model|]]; simpl in *.
  - destruct (predict_proba model text) as [proba|].
    + destruct (argmax proba) as [idx|].
      * destruct (nth_error proba idx) as [conf|]; [reflexivity|].
        destruct (classify_email env g' text). simpl in *. congruence.
      * destruct (classify_email env g' text). simpl in *. congruence.
    + destruct (classify_email env g' text). simpl in *. congruence.
  - destruct (classify_email env g' text). simpl in *. congruence.
Qed.

(** X16: a prediction changes the globals as the call of [load_model] at
    its start does, and in no other way. *)
Theorem X16_prediction_only_loads env g text :
  fst (classify_email env g text) = fst (load_model env g)
  /\ fst (get_prediction_confidence env g text) = fst (load_model env g).
Proof.
  split.
  - apply classify_email_globals.
  - apply get_prediction_confidence_globals.
Qed.

(** X17: when both calls on the pipeline raise, the request is answered
    by the keyword heuristic with confidence 0.85, and the pipeline stays
    in place for the requests that follow. *)
Theorem X17_scoring_failure_falls_back env g model text :
  snd (load_model env g) = Some model ->
  predict_proba model text = None ->
  predict model text = None ->
  get_prediction_confidence env g text
  = (fst (load_model env g),
     (fallback_classification text, placeholder_confidence))
  /\ forall env', snd (load_model env' (fst (load_model env g))) = Some model.
Proof.
  intros Hload Hproba Hpred.
  pose proof (load_model_again env g model Hload) as Hagain.
  split; [|intros env'; now rewrite Hagain].
  unfold get_prediction_confidence, classify_email.
  destruct (load_model env g) as [g' model']. simpl in *. subst model'.
  now rewrite Hproba, (Hagain env), Hpred.
Qed.

Lemma X17_scoring_failure_falls_back_witness :
  snd (get_prediction_confidence
         {| path_exists := true;
            joblib_load :=
              Loaded {| predict := fun _ => None;
                        predict_proba := fun _ => None |} false |}
         initial_globals (lit "you are a winner, claim now your prize"))
  = (lit "Spam", placeholder_confidence).
Proof.
  exact (f_equal snd
           (proj1 (X17_scoring_failure_falls_back
                     {| path_exists := true;
                        joblib_load :=
                          Loaded {| predict := fun _ => None;
                                    predict_proba := fun _ => None |} false |}
                     initial_globals
                     {| predict := fun _ => None;
                        predict_proba := fun _ => None |}
                     (lit "you are a winner, claim now your prize")
                     eq_refl eq_refl eq_refl))).
Defined.

Lemma argmax_from_bound ip : forall mp best i,
  best < i -> argmax_from mp best i ip < i + length ip.
Proof.
  induction ip as [|x ip IH]; intros mp best i Hb; cbn [argmax_from length].
  - lia.
  - destruct (negb (PrimFloat.leb x mp)).
    + destruct (PrimFloat.is_nan x); [lia|].
      specialize (IH x i (S i)). lia.
    + specialize (IH mp best (S i)). lia.
Qed.

Lemma argmax_bound a idx : argmax a = Some idx -> idx < length a.
Proof.
  unfold argmax. destruct a as [|x a]; [discriminate|].
  destruct (PrimFloat.is_nan x); intros [= <-]; cbn [length]; [lia|].
  pose proof (argmax_from_bound a x 0 1). lia.
Qed.

(** X18: when the pipeline returns a probability vector that is not
    empty, the answer comes from it: the index [argmax] picks lies inside
    the vector, the confidence is the entry there, and the label is "Spam"
    for index 1 and "Not Spam" for any other index. *)
Theorem X18_probabilities_decide env g model text proba :
  snd (load_model env g) = Some model ->
  predict_proba model text = Some proba ->
  proba <> [] ->
  exists idx conf,
    argmax proba = Some idx
    /\ idx < length proba
    /\ nth_error proba idx = Some conf
    /\ get_prediction_confidence env g text
       = (fst (load_model env g),
          (if idx =? 1 then lit "Spam" else lit "Not Spam", conf)).
Proof.
  intros Hload Hproba Hne.
  destruct (argmax proba) as [idx|] eqn:Harg;
    [|destruct proba as [|x a]; [congruence|];
      unfold argmax in Harg; destruct (PrimFloat.is_nan x); discriminate].
  pose proof (argmax_bound proba idx Harg) as Hlt.
  destruct (nth_error proba idx) as [conf|] eqn:Hnth;
    [|apply nth_error_None in Hnth; lia].
  exists idx, conf. repeat split; auto.
  unfold get_prediction_confidence.
  destruct (load_model env g) as [g' model']. simpl in Hload. subst model'.
  now rewrite Hproba, Harg, Hnth.
Qed.

Lemma X18_probabilities_decide_witness :
  exists idx conf,
    argmax [0.25%float; 0.25%float; 0.5%float] = Some idx
    /\ idx < 3
    /\ nth_error [0.25%float; 0.25%float; 0.5%float] idx = Some conf
    /\ get_prediction_confidence
         {| path_exists := true; joblib_load := Loaded three_class_model false |}
         initial_globals (lit "some message text")
       = (fst (load_model
                 {| path_exists := true;
                    joblib_load := Loaded three_class_model false |}
                 initial_globals),
          (if idx =? 1 then lit "Spam" else lit "Not Spam", conf)).
Proof.
  exact (X18_probabilities_decide
           {| path_exists := true; joblib_load := Loaded three_class_model false |}
           initial_globals three_class_model (lit "some message text")
           [0.25%float; 0.25%float; 0.5%float] eq_refl eq_refl
           ltac:(discriminate)).
Defined.

(** X19: an empty probability vector is treated as a failing probability
    call: the label is the plain prediction and the confidence 0.85. *)
Theorem X19_empty_probabilities env g model text idx :
  snd (load_model env g) = Some model ->
  predict_proba model text = Some [] ->
  predict model text = Some idx ->
  snd (get_prediction_confidence env g text)
  = (if Z.eqb idx 1 then lit "Spam" else lit "Not Spam",
     placeholder_confidence).
Proof.
  intros Hload Hproba Hpred.
  pose proof (load_model_again env g model Hload env) as Hagain.
  unfold get_prediction_confidence, classify_email.
  destruct (load_model env g) as [g' model']. simpl in *. subst model'.
  rewrite Hproba. cbn [argmax]. now rewrite Hagain, Hpred.
Qed.

Lemma X19_empty_probabilities_witness :
  snd (get_prediction_confidence
         {| path_exists := true;
            joblib_load :=
              Loaded {| predict := fun _ => Some 1%Z;
                        predict_proba := fun _ => Some [] |} false |}
         initial_globals (lit "hello"))
  = (lit "Spam", placeholder_confidence).
Proof.
  exact (X19_empty_probabilities
           {| path_exists := true;
              joblib_load :=
                Loaded {| predict := fun _ => Some 1%Z;
                          predict_proba := fun _ => Some [] |} false |}
           initial_globals
           {| predict := fun _ => Some 1%Z; predict_proba := fun _ => Some [] |}
           (lit "hello") 1%Z eq_refl eq_refl eq_refl).
Defined.

(** X20: for a two-class pipeline whose first probability is a number,
    the label is "Spam" exactly when the second probability is not less
    than or equal to the first, and the confidence is the probability of
    the class chosen. *)
Theorem X20_two_class_threshold env g model text p0 p1 :
  snd (load_model env g) = Some model ->
  predict_proba model text = Some [p0; p1] ->
  PrimFloat.is_nan p0 = false ->
  snd (get_prediction_confidence env g text)
  = if PrimFloat.leb p1 p0 then (lit "Not Spam", p0) else (lit "Spam", p1).
Proof.
  intros Hload Hproba Hnan.
  unfold get_prediction_confidence.
  destruct (load_model env g) as [g' model']. simpl in Hload. subst model'.
  rewrite Hproba. cbn [argmax argmax_from]. rewrite Hnan.
  destruct (PrimFloat.leb p1 p0); cbn [negb]; [reflexivity|].
  destruct (PrimFloat.is_nan p1); reflexivity.
Qed.

Lemma X20_two_class_threshold_witness :
  snd (get_prediction_confidence
         {| path_exists := true;
            joblib_load :=
              Loaded {| predict := fun _ => Some 1%Z;
                        predict_proba :=
                          fun _ => Some [0.25%float; 0.75%float] |} false |}
         initial_globals (lit "hello"))
  = (lit "Spam", 0.75%float).
Proof.
  exact (X20_two_class_threshold
           {| path_exists := true;
              joblib_load :=
                Loaded {| predict := fun _ => Some 1%Z;
                          predict_proba :=
                            fun _ => Some [0.25%float; 0.75%float] |} false |}
           initial_globals
           {| predict := fun _ => Some 1%Z;
              predict_proba := fun _ => Some [0.25%float; 0.75%float] |}
           (lit "hello") 0.25%float 0.75%float eq_refl eq_refl eq_refl).
Defined.

(** ** The keyword heuristic *)

Lemma lower_idem s : lower (lower s) = lower s.
Proof.
  unfold lower. rewrite map_map. apply map_ext. apply lower_char_idem.
Qed.

(** X21: the keyword heuristic is blind to letter case: two texts with
    the same lowercase form get the same score and the same label, and so
    do a text and its lowercase form. *)
Theorem X21_fallback_ignores_case text :
  (forall text', lower text = lower text' ->
                 scam_score text = scam_score text'
                 /\ fallback_classification text
                    = fallback_classification text')
  /\ fallback_classification (lower text) = fallback_classification text.
Proof.
  assert (H : forall text', lower text = lower text' ->
                            scam_score text = scam_score text').
  { intros text' Heq. unfold scam_score. now rewrite Heq. }
  split.
  - intros text' Heq. split; [now apply H|].
    unfold fallback_classification. now rewrite (H text' Heq).
  - unfold fallback_classification, scam_score. now rewrite lower_idem.
Qed.

Lemma starts_with_app_r p s b :
  starts_with p s = true -> starts_with p (s ++ b) = true.
Proof.
  revert s. induction p as [|a p IH]; intros [|x s]; simpl; auto;
    [discriminate|].
  intros H. apply andb_true_iff in H as [H1 H2]. now rewrite H1, IH.
Qed.

Lemma contains_app_r p s b : contains p s = true -> contains p (s ++ b) = true.
Proof.
  induction s as [|x s IH]; intros H.
  - simpl in H. apply orb_true_iff in H as [H|H]; [|discriminate].
    destruct p; [|discriminate]. destruct b; reflexivity.
  - cbn [contains] in H. apply orb_true_iff in H as [H|H].
    + change ((x :: s) ++ b) with (x :: (s ++ b)). cbn [contains].
      apply orb_true_iff. left.
      exact (starts_with_app_r p (x :: s) b H).
    + change ((x :: s) ++ b) with (x :: (s ++ b)). cbn [contains].
      apply orb_true_iff. right. now apply IH.
Qed.

Lemma contains_app_front p a s : contains p s = true -> contains p (a ++ s) = true.
Proof.
  intros H. induction a as [|x a IH]; [exact H|].
  change ((x :: a) ++ s) with (x :: (a ++ s)). cbn [contains].
  apply orb_true_iff. now right.
Qed.

Lemma list_sum_b2n_mono (A : Type) (f f' : A -> bool) (l : list A) :
  (forall x, f x = true -> f' x = true) ->
  list_sum (map (fun x => Nat.b2n (f x)) l)
  <= list_sum (map (fun x => Nat.b2n (f' x)) l).
Proof.
  intros H. induction l as [|x l IH]; [apply le_n|].
  cbn [map list_sum fold_right]. fold (list_sum (map (fun x => Nat.b2n (f x)) l)).
  fold (list_sum (map (fun x => Nat.b2n (f' x)) l)).
  destruct (f x) eqn:Hf; [rewrite (H x Hf)|destruct (f' x)]; simpl; lia.
Qed.

(** X22: text added before or after a message never lowers its score: a
    message the keyword heuristic calls "Spam" stays "Spam" whatever is put
    around it. *)
Theorem X22_fallback_is_monotone before text after :
  scam_score text <= scam_score (before ++ text ++ after)
  /\ (fallback_classification text = lit "Spam" ->
      fallback_classification (before ++ text ++ after) = lit "Spam").
Proof.
  assert (Hle : scam_score text <= scam_score (before ++ text ++ after)).
  { rewrite !scam_score_presence. apply list_sum_b2n_mono.
    intros keyword H. unfold lower. rewrite !map_app.
    now apply contains_app_front, contains_app_r. }
  split; [exact Hle|].
  unfold fallback_classification.
  destruct (3 <=? scam_score text) eqn:H3; [|discriminate].
  intros _. apply Nat.leb_le in H3.
  replace (3 <=? scam_score (before ++ text ++ after)) with true;
    [reflexivity|]. symmetry. apply Nat.leb_le. lia.
Qed.

Lemma X22_fallback_is_monotone_witness :
  fallback_classification
    (lit "Hi Bob, " ++ lit "URGENT: verify your password" ++ lit ". Thanks!")
  = lit "Spam".
Proof.
  exact (proj2 (X22_fallback_is_monotone (lit "Hi Bob, ")
                  (lit "URGENT: verify your password") (lit ". Thanks!"))
           eq_refl).
Defined.

(** ** The routes *)

(** X23: the route [/predict] answers in one of two ways: with status 200,
    a body that holds the label "Spam" or "Not Spam" and a confidence, and
    the globals as [load_model] leaves them; or with status 400 or 500, a
    body that holds one error message, and the globals untouched. *)
Theorem X23_predict_route_responses env g request :
  let r := predict_route env g request in
  (status (snd r) = 200
   /\ fst r = fst (load_model env g)
   /\ exists label conf,
        (label = lit "Spam" \/ label = lit "Not Spam")
        /\ body (snd r) = JObj [(lit "prediction", JStr label);
                                (lit "confidence", JFloat conf)])
  \/ ((status (snd r) = 400 \/ status (snd r) = 500)
      /\ fst r = g
      /\ exists msg, body (snd r) = JObj [(lit "error", JStr (lit msg))]).
Proof.
  cbv zeta. unfold predict_route.
  assert (Herr : forall msg code,
             code = 400 \/ code = 500 ->
             (status (snd (g, error_response msg code)) = 400
              \/ status (snd (g, error_response msg code)) = 500)
             /\ fst (g, error_response msg code) = g
             /\ exists msg',
                  body (snd (g, error_response msg code))
                  = JObj [(lit "error", JStr (lit msg'))]).
  { intros msg code Hc. split; [exact Hc|]. split; [reflexivity|].
    now exists msg. }
  destruct request as [data|]; [|right; apply Herr; now right].
  destruct (negb (truthy data)); [right; apply Herr; now left|].
  destruct data as [| b | n | x | s | items | fields];
    try (right; apply Herr; now right).
  destruct (dict_get fields (lit "email_text") (JStr []))
    as [| b | n | x | raw | items | fields'];
    try (right; apply Herr; now right).
  destruct (strip raw) as [|c rest] eqn:Hs; [right; apply Herr; now left|].
  destruct (length (c :: rest) <? 10); [right; apply Herr; now left|].
  left.
  pose proof (get_prediction_confidence_label env g (c :: rest)) as Hlabel.
  pose proof (get_prediction_confidence_globals env g (c :: rest)) as Hg.
  destruct (get_prediction_confidence env g (c :: rest))
    as [g' [label conf]].
  cbn [fst snd status body] in *. split; [reflexivity|]. split; [exact Hg|].
  now exists label, conf.
Qed.

(** X24: the route looks at the stripped text only: a request whose
    [email_text] is stripped already gets the answer of the request with
    whitespace around the text. *)
Theorem X24_predict_route_ignores_outer_whitespace env g fields fields' raw :
  fields <> [] -> fields' <> [] ->
  dict_get fields (lit "email_text") (JStr []) = JStr raw ->
  dict_get fields' (lit "email_text") (JStr []) = JStr (strip raw) ->
  predict_route env g (GotJson (JObj fields))
  = predict_route env g (GotJson (JObj fields')).
Proof.
  intros Hf Hf' Hget Hget'. unfold predict_route.
  destruct fields as [|kv fields]; [congruence|].
  destruct fields' as [|kv' fields']; [congruence|].
  cbn [truthy negb]. cbv iota. now rewrite Hget, Hget', strip_idem.
Qed.

Lemma X24_predict_route_ignores_outer_whitespace_witness :
  predict_route {| path_exists := false; joblib_load := LoadRaises |}
                initial_globals ok_request
  = predict_route {| path_exists := false; joblib_load := LoadRaises |}
                  initial_globals
                  (GotJson (JObj [(lit "email_text",
                                   JStr (lit "free money, act now"))])).
Proof.
  exact (X24_predict_route_ignores_outer_whitespace
           {| path_exists := false; joblib_load := LoadRaises |}
           initial_globals
           [(lit "email_text", JStr (lit "  free money, act now  "))]
           [(lit "email_text", JStr (lit "free money, act now"))]
           (lit "  free money, act now  ")
           ltac:(discriminate) ltac:(discriminate) eq_refl eq_refl).
Defined.

Lemma dict_get_missing fields key default :
  (forall k v, In (k, v) fields -> k <> key) ->
  dict_get fields key default = default.
Proof.
  induction fields as [|[k v] fields IH]; intros H; [reflexivity|].
  cbn [dict_get]. unfold str_eqb.
  destruct (list_eq_dec ascii_dec k key) as [Heq|_].
  - exfalso. apply (H k v); [now left|exact Heq].
  - apply IH. intros k' v' Hin. apply (H k' v'). now right.
Qed.

(** X25: a body that is a dictionary with entries but without the key
    [email_text] is answered with status 400 and the message that the text
    is required; nothing is loaded. *)
Theorem X25_predict_route_missing_key env g fields :
  fields <> [] ->
  (forall k v, In (k, v) fields -> k <> lit "email_text") ->
  predict_route env g (GotJson (JObj fields))
  = (g, error_response "Email text is required" 400).
Proof.
  intros Hne Hmissing. unfold predict_route.
  destruct fields as [|kv fields]; [congruence|].
  cbn [truthy negb]. cbv iota.
  now rewrite (dict_get_missing _ _ _ Hmissing).
Qed.

Lemma X25_predict_route_missing_key_witness :
  predict_route {| path_exists := true; joblib_load := LoadRaises |}
                initial_globals
                (GotJson (JObj [(lit "text", JStr (lit "free money now"))]))
  = (initial_globals, error_response "Email text is required" 400).
Proof.
  apply X25_predict_route_missing_key; [discriminate|].
  intros k v [[= <- <-]|[]]. vm_compute. discriminate.
Defined.

Lemma get_prediction_confidence_cached g :
  _model_loaded g = true ->
  forall env env' text,
    get_prediction_confidence env g text
    = get_prediction_confidence env' g text.
Proof.
  intros Hl env env' text. unfold get_prediction_confidence, classify_email.
  rewrite (load_model_cached g Hl env), (load_model_cached g Hl env').
  destruct (_model g) as [model|];
    now rewrite (load_model_cached g Hl env), (load_model_cached g Hl env').
Qed.

Lemma predict_route_cached g :
  _model_loaded g = true ->
  forall env env' request,
    predict_route env g request = predict_route env' g request.
Proof.
  intros Hl env env' request. unfold predict_route.
  destruct request as [data|]; [|reflexivity].
  destruct (negb (truthy data)); [reflexivity|].
  destruct data; try reflexivity.
  destruct (dict_get fields (lit "email_text") (JStr [])); try reflexivity.
  destruct (strip s) as [|c rest]; [reflexivity|].
  destruct (length (c :: rest) <? 10); [reflexivity|].
  now rewrite (get_prediction_confidence_cached g Hl env env').
Qed.

(** X26: once a request has been answered with a prediction, the file
    system is not looked at again: every later answer of [/predict] is the
    same whatever the model file has become. *)
Theorem X26_no_reload_after_first_prediction env1 g request1 email_text :
  accepted_input request1 email_text ->
  let g1 := fst (predict_route env1 g request1) in
  _model_loaded g1 = true
  /\ forall env env' request,
       predict_route env g1 request = predict_route env' g1 request.
Proof.
  intros (fields & raw & -> & Hget & -> & Hlen). cbv zeta.
  assert (Hg1 : fst (predict_route env1 g (GotJson (JObj fields)))
                = fst (load_model env1 g)).
  { unfold predict_route.
    destruct fields as [|kv fields];
      [simpl in Hget; injection Hget as <-; simpl in Hlen; lia|].
    cbn [truthy negb]. cbv iota. rewrite Hget.
    destruct (strip raw) as [|c rest] eqn:Hs; [simpl in Hlen; lia|].
    replace (length (c :: rest) <? 10) with false
      by (symmetry; apply Nat.ltb_ge; exact Hlen).
    pose proof (get_prediction_confidence_globals env1 g (c :: rest)) as Hg.
    destruct (get_prediction_confidence env1 g (c :: rest))
      as [g' [label conf]]. exact Hg. }
  rewrite Hg1.
  pose proof (load_model_sets_flag env1 g) as Hflag.
  split; [exact Hflag|]. now apply predict_route_cached.
Qed.

Lemma X26_no_reload_after_first_prediction_witness :
  let g1 := fst (predict_route
                   {| path_exists := false; joblib_load := LoadRaises |}
                   initial_globals ok_request) in
  _model_loaded g1 = true
  /\ forall env env' request,
       predict_route env g1 request = predict_route env' g1 request.
Proof.
  apply (X26_no_reload_after_first_prediction
           {| path_exists := false; joblib_load := LoadRaises |}
           initial_globals ok_request (lit "free money, act now")).
  exists [(lit "email_text", JStr (lit "  free money, act now  "))],
         (lit "  free money, act now  ").
  repeat split. vm_compute. lia.
Defined.

(** X27: the health route always answers 200 with status "healthy"; it
    loads the pipeline as a prediction would, reports [model_loaded] as
    true exactly when [load_model] returns a pipeline, and after it the
    answers of [/predict] no longer depend on the file system. *)
Theorem X27_health_loads_the_model obj env g :
  let r := health obj env g in
  status (snd r) = 200
  /\ fst r = fst (load_model env g)
  /\ dict_get (match body (snd r) with JObj fields => fields | _ => [] end)
              (lit "status") JNull = JStr (lit "healthy")
  /\ dict_get (match body (snd r) with JObj fields => fields | _ => [] end)
              (lit "model_loaded") JNull
     = JBool (match snd (load_model env g) with
              | Some _ => true
              | None => false
              end)
  /\ forall env1 env2 request,
       predict_route env1 (fst r) request
       = predict_route env2 (fst r) request.
Proof.
  cbv zeta. unfold health, get_model_info.
  pose proof (load_model_sets_flag env g) as Hflag.
  destruct (load_model env g) as [g' model]. cbn [fst snd status body] in *.
  repeat split. intros env1 env2 request. now apply predict_route_cached.
Qed.

(** X29: the route answers with status 400 exactly when [get_json]
    returns a body that is false as a Python object, or a dictionary whose
    [email_text] (the empty string when the key is absent) is a string of
    fewer than 10 characters once stripped, the empty one included.  It
    answers a dictionary whose stripped [email_text] has 10 characters or
    more with status 200, the label and the confidence of
    [get_prediction_confidence] on the stripped text. *)
Theorem X29_predict_route_status env g request :
  (status (snd (predict_route env g request)) = 400 <-> rejected_input request)
  /\ (forall email_text,
        accepted_input request email_text ->
        snd (predict_route env g request)
        = {| body :=
               JObj [(lit "prediction",
                      JStr (fst (snd (get_prediction_confidence
                                        env g email_text))));
                     (lit "confidence",
                      JFloat (snd (snd (get_prediction_confidence
                                          env g email_text))))];
             status := 200 |}).
Proof.
  split.
  - destruct request as [data|]; simpl; [|split; [discriminate|tauto]].
    destruct (truthy data) eqn:Ht; simpl; [|split; auto].
    destruct data as [| b | n | x | s | items | fields]; simpl;
      try (split; [discriminate|];
           intros [H|(f & r & H & _)]; congruence).
    destruct (dict_get fields (lit "email_text") (JStr [])) as
      [| b | n | x | raw | items | fields'] eqn:Hget; simpl;
      try (split; [discriminate|];
           intros [H|(f & r & H1 & H2 & _)]; [congruence|];
           injection H1 as <-; congruence).
    destruct (strip raw) as [|c rest] eqn:Hs; simpl.
    + split; [|reflexivity]. intros _. right. exists fields, raw.
      rewrite Hs. auto.
    + destruct (S (length rest) <? 10) eqn:Hlen; simpl.
      * split; [|reflexivity]. intros _. right. exists fields, raw.
        rewrite Hs. apply Nat.ltb_lt in Hlen. simpl.
        split; [reflexivity|]. split; [exact Hget|]. right. lia.
      * apply Nat.ltb_ge in Hlen.
        destruct (get_prediction_confidence env g (c :: rest))
          as [g' [prediction confidence]]. simpl.
        split; [discriminate|].
        intros [H|(f & r & H1 & H2 & H3)]; [congruence|].
        injection H1 as <-. rewrite Hget in H2. injection H2 as <-.
        rewrite Hs in H3. simpl in H3.
        destruct H3 as [H3|H3]; [discriminate|lia].
  - intros email_text (fields & raw & -> & Hget & -> & Hlen).
    simpl. destruct fields as [|kv fields]; [|cbn [truthy negb]].
    { simpl in Hget. injection Hget as <-. simpl in Hlen. lia. }
    cbv iota. rewrite Hget.
    destruct (strip raw) as [|c rest] eqn:Hs; [simpl in Hlen; lia|].
    simpl in Hlen.
    replace (length (c :: rest) <? 10) with false
      by (symmetry; apply Nat.ltb_ge; simpl; lia).
    destruct (get_prediction_confidence env g (c :: rest))
      as [g' [prediction confidence]]. reflexivity.
Qed.

Lemma X29_predict_route_status_witness :
  status (snd (predict_route {| path_exists := false; joblib_load := LoadRaises |}
                             initial_globals ok_request)) = 200
  /\ status (snd (predict_route
                    {| path_exists := false; joblib_load := LoadRaises |}
                    initial_globals
                    (GotJson (JObj [(lit "email_text", JStr (lit " hi "))]))))
     = 400.
Proof.
  split.
  - rewrite (proj2 (X29_predict_route_status
                      {| path_exists := false; joblib_load := LoadRaises |}
                      initial_globals ok_request)
               (lit "free money, act now")); [reflexivity|].
    exists [(lit "email_text", JStr (lit "  free money, act now  "))],
           (lit "  free money, act now  ").
    repeat split. vm_compute. lia.
  - apply (proj1 (X29_predict_route_status
                    {| path_exists := false; joblib_load := LoadRaises |}
                    initial_globals
                    (GotJson (JObj [(lit "email_text", JStr (lit " hi "))])))).
    right. exists [(lit "email_text", JStr (lit " hi "))], (lit " hi ").
    repeat split. right. vm_compute. lia.
Defined.

(** ** Lowercasing and the other steps *)

Lemma lower_char_nl c : Ascii.eqb (lower_char c) nl = Ascii.eqb c nl.
Proof. each_char c. Qed.

Lemma lower_char_cr c : Ascii.eqb (lower_char c) cr = Ascii.eqb c cr.
Proof. each_char c. Qed.

Lemma eat_nl_lower s : eat_nl (lower s) = option_map lower (eat_nl s).
Proof.
  destruct s as [|c s]; [reflexivity|].
  unfold lower. cbn [map eat_nl]. rewrite lower_char_nl.
  now destruct (Ascii.eqb c nl).
Qed.

Lemma eat_terminator_lower s :
  eat_terminator (lower s) = option_map lower (eat_terminator s).
Proof.
  destruct s as [|c s]; [reflexivity|].
  change (lower (c :: s)) with (lower_char c :: lower s).
  cbn [eat_terminator]. rewrite lower_char_cr.
  destruct (Ascii.eqb c cr); [apply eat_nl_lower|].
  change (lower_char c :: lower s) with (lower (c :: s)). apply eat_nl_lower.
Qed.

Lemma blank_match_lower s :
  blank_match (lower s) = option_map lower (blank_match s).
Proof.
  unfold blank_match. rewrite eat_terminator_lower.
  destruct (eat_terminator s) as [s1|]; [|reflexivity].
  cbn [option_map]. apply eat_terminator_lower.
Qed.

Lemma find_blank_lower s :
  find_blank (lower s)
  = option_map (fun pp => (lower (fst pp), lower (snd pp))) (find_blank s).
Proof.
  induction s as [|x s IH].
  - reflexivity.
  - change (lower (x :: s)) with (lower_char x :: lower s).
    cbn [find_blank].
    change (lower_char x :: lower s) with (lower (x :: s)).
    rewrite blank_match_lower.
    destruct (blank_match (x :: s)) as [post|]; [reflexivity|].
    cbn [option_map]. rewrite IH.
    destruct (find_blank s) as [[pre post]|]; reflexivity.
Qed.

Lemma squeeze_lower s : forall b, squeeze b (lower s) = lower (squeeze b s).
Proof.
  induction s as [|x s IH]; intros b; [reflexivity|].
  change (lower (x :: s)) with (lower_char x :: lower s).
  cbn [squeeze]. rewrite lower_char_space.
  destruct (is_space x); [destruct b|]; rewrite IH; reflexivity.
Qed.

Lemma lstrip_lower s : lstrip (lower s) = lower (lstrip s).
Proof.
  induction s as [|x s IH]; [reflexivity|].
  change (lower (x :: s)) with (lower_char x :: lower s).
  cbn [lstrip]. rewrite lower_char_space.
  destruct (is_space x); [exact IH|reflexivity].
Qed.

Lemma rstrip_lower s : rstrip (lower s) = lower (rstrip s).
Proof.
  induction s as [|x s IH]; [reflexivity|].
  change (lower (x :: s)) with (lower_char x :: lower s).
  cbn [rstrip]. rewrite IH, lower_char_space.
  destruct (rstrip s) as [|y k]; [|reflexivity].
  cbn [lower map]. destruct (is_space x); reflexivity.
Qed.

(** X28: lowercasing commutes with header stripping and with the
    whitespace collapse: these two steps give the same text whether
    [lower] runs before or after them. *)
Theorem X28_lower_commutes text :
  _strip_headers (lower text) = lower (_strip_headers text)
  /\ collapse_whitespace (lower text) = lower (collapse_whitespace text).
Proof.
  split.
  - rewrite !strip_headers_find, find_blank_lower.
    destruct (find_blank text) as [[pre post]|]; reflexivity.
  - rewrite !collapse_whitespace_squeeze. unfold strip.
    now rewrite squeeze_lower, lstrip_lower, rstrip_lower.
Qed.
